(** * tail-ws: the synchronized tail reader and the broadcast server

    A shallow embedding of [watch/watch.go] (package [watch]) and of the
    connection registry and server of package [broadcast], together with
    the properties of the design document that can be decided on them.

    Go values are embedded as follows.
    - [int64] and [time.Duration] are [Z], arithmetic goes through [wrap64];
    - [error] is [option error], [None] being [nil];
    - a [*websocket.Conn] is its identity, a [positive];
    - the registry [map[*websocket.Conn]struct{}] is a [gset];
    - blocking operations are scheduled: a goroutine is a program counter
      in the system state and a schedule is a list of actions. *)

From Stdlib Require Import ZArith Lia.
From Stdlib.Strings Require Import Byte.
From stdpp Require Import gmap strings list.

(** ** 64-bit signed arithmetic *)

Definition min_int64 : Z := - 2 ^ 63.
Definition max_int64 : Z := 2 ^ 63 - 1.

Definition wrap64 (z : Z) : Z := ((z + 2 ^ 63) mod 2 ^ 64 - 2 ^ 63)%Z.

Definition in_int64 (z : Z) : Prop := (min_int64 <= z <= max_int64)%Z.

(** * The events of fsnotify *)

Module fsnotify.

Local Open Scope Z_scope.

(** [fsnotify.Op] is a bit mask. *)
Definition Create : Z := Z.shiftl 1 0.
Definition Write : Z := Z.shiftl 1 1.
Definition Remove : Z := Z.shiftl 1 2.
Definition Rename : Z := Z.shiftl 1 3.
Definition Chmod : Z := Z.shiftl 1 4.

Record Event : Set := mkEvent {
  Name : string;
  Op : Z
}.

(** [e.Has(op)] *)
Definition Has (e : Event) (op : Z) : bool := Z.land (Op e) op =? op.

End fsnotify.

(** * Package watch *)

Module watch.

Import fsnotify.
Local Open Scope Z_scope.

(** The error values the reader can see.  The three sentinels are the
    package's own ([errors.New]); the others stand for what [os] and [io]
    return. *)
Inductive error : Set :=
  | EOF                  (* io.EOF *)
  | ErrFileDeleted
  | ErrFileOverwritten
  | ErrFileRenamed
  | ErrNotExist          (* the error os.IsNotExist recognises *)
  | ErrClosed            (* os.ErrClosed: use of a closed file *)
  | ErrInvalid           (* EINVAL, a seek before the start of the file *)
  | Wrapped (err : error) (* fmt.Errorf with %w *)
  | ErrOS (code : nat).  (* any other error of the operating system *)

#[global] Instance error_eq_dec : EqDecision error.
Proof. solve_decision. Defined.

Definition IsNotExist (err : error) : bool :=
  match err with ErrNotExist => true | _ => false end.

(** ** The file system seen through [os] *)

(** What a name of the watched directory resolves to. *)
Inductive dirent : Set :=
  | Linked (ino : nat)         (* a regular file *)
  | Unreadable (code : nat).   (* lookup fails with an error other than ENOENT *)

Record World : Type := mkWorld {
  names : gmap string dirent;          (* absent: the name does not exist *)
  inodes : gmap nat (list byte);       (* contents of the regular files *)
  next_ino : nat;                      (* next free inode number *)
  new_watcher_err : option error;      (* outcome of fsnotify.NewWatcher *)
  watcher_add_err : option error       (* outcome of watcher.Add(dir) *)
}.

Definition contents (w : World) (ino : nat) : list byte :=
  default [] (inodes w !! ino).

Definition file_size (w : World) (ino : nat) : Z :=
  Z.of_nat (length (contents w ino)).

Definition set_names (f : gmap string dirent -> gmap string dirent) (w : World) : World :=
  mkWorld (f (names w)) (inodes w) (next_ino w) (new_watcher_err w) (watcher_add_err w).

Definition set_contents (ino : nat) (data : list byte) (w : World) : World :=
  mkWorld (names w) (<[ino := data]> (inodes w)) (next_ino w)
          (new_watcher_err w) (watcher_add_err w).

(** [os.Stat(name)]: the size, or an error. *)
Definition os_Stat (w : World) (name : string) : Z + error :=
  match names w !! name with
  | None => inr ErrNotExist
  | Some (Unreadable c) => inr (ErrOS c)
  | Some (Linked ino) => inl (file_size w ino)
  end.

(** What other processes do to the watched directory. *)
Inductive EnvOp : Type :=
  | EAppend (name : string) (data : list byte)
  | ETruncate (name : string) (size : nat)
  | ERemove (name : string)
  | ECreate (name : string) (data : list byte)
  | ERename (name to : string).

(** A regular file never grows beyond the largest offset ([EFBIG]). *)
Definition fits (data : list byte) : bool := Z.of_nat (length data) <=? max_int64.

Definition env_step (op : EnvOp) (w : World) : World :=
  match op with
  | EAppend name data =>
      match names w !! name with
      | Some (Linked ino) =>
          let data' := contents w ino ++ data in
          if fits data' then set_contents ino data' w else w
      | _ => w
      end
  | ETruncate name size =>
      match names w !! name with
      | Some (Linked ino) => set_contents ino (take size (contents w ino)) w
      | _ => w
      end
  | ERemove name => set_names (delete name) w
  | ECreate name data =>
      match names w !! name with
      | Some _ => w
      | None =>
          if fits data then
            mkWorld (<[name := Linked (next_ino w)]> (names w))
                    (<[next_ino w := data]> (inodes w))
                    (S (next_ino w)) (new_watcher_err w) (watcher_add_err w)
          else w
      end
  | ERename name to =>
      match names w !! name with
      | Some d => set_names (fun m => <[to := d]> (delete name m)) w
      | None => w
      end
  end.

(** ** [*os.File] *)

Record File : Set := mkFile {
  f_ino : nat;
  f_pos : Z;
  f_closed : bool
}.

Inductive Whence : Set := SeekStart | SeekEnd_.

Definition os_Open (w : World) (name : string) : File + error :=
  match names w !! name with
  | None => inr ErrNotExist
  | Some (Unreadable c) => inr (ErrOS c)
  | Some (Linked ino) => inl (mkFile ino 0 false)
  end.

(** [f.Seek(off, whence)]: the new position and the error. *)
Definition File_Seek (w : World) (f : File) (off : Z) (whence : Whence)
  : File * option error :=
  if f_closed f then (f, Some ErrClosed)
  else
    let target := match whence with
                  | SeekStart => off
                  | SeekEnd_ => file_size w (f_ino f) + off
                  end in
    if target <? 0 then (f, Some ErrInvalid)
    else (mkFile (f_ino f) target false, None).

(** [f.Read(b)] with [len(b) = blen]: the bytes stored in [b], the error
    and the file.  At the end of the contents the result is [0, io.EOF];
    an empty buffer reads [0, nil]. *)
Definition File_Read (w : World) (f : File) (blen : nat)
  : list byte * option error * File :=
  if f_closed f then ([], Some ErrClosed, f)
  else if Nat.eqb blen 0 then ([], None, f)
  else
    let got := take blen (drop (Z.to_nat (f_pos f)) (contents w (f_ino f))) in
    match got with
    | [] => ([], Some EOF, f)
    | _ => (got, None, mkFile (f_ino f) (f_pos f + Z.of_nat (length got)) false)
    end.

Definition File_Close (f : File) : File * option error :=
  if f_closed f then (f, Some ErrClosed)
  else (mkFile (f_ino f) (f_pos f) true, None).

(** ** The reader *)

(** The unbuffered channel [read chan struct{}]: a send is counted when the
    sender reaches it and completes when it is received. *)
Record chan : Set := mkChan {
  ch_closed : bool;
  ch_sent : nat;
  ch_recvd : nat
}.

Definition make_chan : chan := mkChan false 0 0.

Definition pending (c : chan) : bool := negb (Nat.eqb (ch_sent c) (ch_recvd c)).

Record reader : Set := mkReader {
  offset : Z;               (* int64 *)
  seekEnd : bool;
  file : option File;       (* io.ReadSeekCloser, nil before Watch *)
  read : chan
}.

Definition set_offset (o : Z) (r : reader) : reader :=
  mkReader o (seekEnd r) (file r) (read r).
Definition set_file (f : option File) (r : reader) : reader :=
  mkReader (offset r) (seekEnd r) f (read r).
Definition set_read (c : chan) (r : reader) : reader :=
  mkReader (offset r) (seekEnd r) (file r) c.

(** An [Option] is a function that configures the reader it is given. *)
Definition Option : Set := reader -> reader.

Definition StartOffset (offset : Z) : Option :=
  fun r => set_offset offset r.

Definition SeekEnd : Option :=
  fun r => mkReader (offset r) true (file r) (read r).

Definition NewReader (options : list Option) : reader :=
  fold_left (fun r apply => apply r) options (mkReader 0 false None make_chan).

Definition GetOffset (r : reader) : Z := offset r.

(** What a call can come to: it returns, or the goroutine panics. *)
Inductive outcome : Set :=
  | Return (err : option error)
  | Panics.

(** [r.read <- struct{}{}] *)
Definition chan_send (r : reader) : outcome * reader :=
  if ch_closed (read r) then (Panics, r)
  else (Return None,
        set_read (mkChan false (S (ch_sent (read r))) (ch_recvd (read r))) r).

(** [close(r.read); return nil] *)
Definition Close (r : reader) : outcome * reader :=
  if ch_closed (read r) then (Panics, r)
  else (Return None, set_read (mkChan true (ch_sent (read r)) (ch_recvd (read r))) r).

Definition openFile (w : World) (r : reader) (name : string) : File + error :=
  match os_Open w name with
  | inr err => inr err
  | inl f =>
      if 0 <? offset r then
        match File_Seek w f (offset r) SeekStart with
        | (_, Some err) => inr (Wrapped err)
        | (f', None) => inl f'
        end
      else if seekEnd r then
        match File_Seek w f 0 SeekEnd_ with
        | (_, Some err) => inr (Wrapped err)
        | (f', None) => inl f'
        end
      else inl f
  end.

Definition handleEvent (w : World) (r : reader) (e : Event) : outcome * reader :=
  if Has e Remove then
    match os_Stat w (Name e) with
    | inr err =>
        if IsNotExist err then (Return (Some ErrFileDeleted), r)
        else (Return (Some ErrFileOverwritten), r)
    | inl _ => (Return (Some ErrFileOverwritten), r)
    end
  else if Has e Rename then (Return (Some ErrFileRenamed), r)
  else if Has e Write then
    match os_Stat w (Name e) with
    | inr err => (Return (Some err), r)
    | inl size =>
        if size <=? offset r then
          match file r with
          | None => (Panics, r)
          | Some f =>
              match File_Seek w f 0 SeekStart with
              | (_, Some err) => (Return (Some err), r)
              | (f', None) =>
                  let r := set_offset 0 (set_file (Some f') r) in
                  if size =? 0 then (Return None, r)
                  else chan_send r
              end
          end
        else chan_send r
    end
  else (Return None, r).

(** The size [handleEvent] reads off [info.Size()] at line 205, when it
    gets there. *)
Definition stat_seen (w : World) (e : Event) : option Z :=
  if negb (Has e Remove) && negb (Has e Rename) && Has e Write then
    match os_Stat w (Name e) with
    | inl size => Some size
    | inr _ => None
    end
  else None.

(** *** Read *)

(** [<-r.read] *)
Inductive recv_result : Set :=
  | Received (r : reader)   (* ok *)
  | ChanClosed              (* !ok *)
  | Blocked.

Definition recv (r : reader) : recv_result :=
  let c := read r in
  if pending c then Received (set_read (mkChan (ch_closed c) (ch_sent c) (S (ch_recvd c))) r)
  else if ch_closed c then ChanClosed
  else Blocked.

(** One turn of the [for] loop of [Read], lines 85 to 94: the call
    returns, or goes on to wait at line 97. *)
Inductive attempt : Set :=
  | Done (data : list byte) (err : option error)
  | Again
  | Crash.

Definition is_EOF (err : option error) : bool := bool_decide (err = Some EOF).

(** Lines 86 to 94: what [Read] does with the [n, err] of [r.file.Read],
    [n] being the length of [data]. *)
Definition Read_result (data : list byte) (err : option error) (r : reader)
  : attempt * reader :=
  let n := Z.of_nat (length data) in
  if negb (bool_decide (err = None)) && negb (is_EOF err) then (Done data err, r)
  else if 0 <? n then (Done data None, set_offset (wrap64 (offset r + n)) r)
  else (Again, r).

Definition Read_attempt (w : World) (r : reader) (blen : nat) : attempt * reader :=
  match file r with
  | None => (Crash, r)
  | Some f =>
      let '(data, err, f') := File_Read w f blen in
      Read_result data err (set_file (Some f') r)
  end.

(** *** Watch *)

(** The deferred [r.file.Close()]. *)
Definition close_file (r : reader) : outcome * reader :=
  match file r with
  | None => (Panics, r)
  | Some f => (Return None, set_file (Some (fst (File_Close f))) r)
  end.

(** [Watch] from its entry to the [select]: [Some err] when it returns
    before.  The name is taken absolute, so [filepath.Abs] does not fail. *)
Definition Watch_begin (w : World) (r : reader) (name : string)
  : outcome * reader :=
  match openFile w r name with
  | inr err => (Return (Some err), set_file None r)
  | inl f =>
      let r := set_file (Some f) r in
      match new_watcher_err w with
      | Some err => (Return (Some err), snd (close_file r))
      | None =>
          match watcher_add_err w with
          | Some err => (Return (Some err), snd (close_file r))
          | None => (Return None, r)
          end
      end
  end.

(** What the [select] of [Watch] receives. *)
Inductive selected : Set :=
  | OnEvent (e : Event)             (* watcher.Events *)
  | OnError (err : option error)    (* watcher.Errors *)
  | OnDone.                         (* ctx.Done() *)

(** One turn of the [for] / [select] loop.  [None]: the loop goes on, the
    reader waiting in a send when one is [pending].  [Some o]: the
    goroutine ends with [o] and [Watch] returns through its deferred
    calls. *)
Definition Watch_select (name : string) (w : World) (r : reader) (x : selected)
  : option outcome * reader :=
  match x with
  | OnEvent e =>
      if negb (String.eqb (Name e) name) then (None, r)
      else
        match handleEvent w r e with
        | (Return None, r') => (None, r')
        | (o, r') => (Some o, r')
        end
  | OnError err =>
      match err with
      | Some _ => (Some (Return err), r)
      | None => (None, r)
      end
  | OnDone => (Some (Return None), r)
  end.

End watch.

(** * Package broadcast *)

Module broadcast.

(** ** Keep-alive policy (server.go, lines 18 to 26) *)

Definition Second : Z := 1000000000.   (* time.Second, in nanoseconds *)

Definition maxMessageSize : Z := 1024.
Definition pongWait : Z := wrap64 (60 * Second).
Definition pingPeriod : Z := wrap64 (Z.quot (wrap64 (pongWait * 9)) 10).
Definition writeWait : Z := wrap64 (8 * Second).

(** ** Connections and their transports *)

(** A [*websocket.Conn] is known by its identity. *)
Abbreviation Conn := positive.

Inductive net_error : Set :=
  | ErrBroken          (* the peer is gone: a write or a probe fails *)
  | ErrUseOfClosed     (* the transport was closed on this side *)
  | ErrHandshake       (* the request is not a websocket handshake *)
  | ErrForbidden.      (* Upgrader.CheckOrigin refused the origin *)

(** What is recorded of the transport under a connection. *)
Record Transport : Set := mkTransport {
  t_closes : nat;                  (* calls of ws.Close() *)
  t_broken : bool;                 (* sends fail *)
  t_writes : nat;                  (* calls of ws.WriteMessage *)
  t_pings : nat;                   (* calls of ws.WriteControl *)
  t_frames : list (list byte)      (* binary frames that went out *)
}.

Definition new_transport : Transport := mkTransport 0 false 0 0 [].

(** [sync.RWMutex] *)
Record RWMutex : Set := mkRWMutex {
  writer : bool;
  readers : nat
}.

Record Connections : Type := mkConnections {
  mu : RWMutex;
  registry : gset positive
}.

Definition NewConnections : Connections :=
  mkConnections (mkRWMutex false 0) ∅.

Record Server : Type := mkServer {
  addr : string;
  origin : string;
  certFile : string;
  keyFile : string;
  connections : Connections
}.

(** The server and what its goroutines share with the network. *)
Record State : Type := mkState {
  srv : Server;
  net : gmap positive Transport;
  tickers : gset positive;                   (* keep-alive goroutines not cancelled *)
  spawned : list (positive * list byte);     (* write goroutines started, not yet run *)
  next_conn : positive                       (* identity of the next connection *)
}.

(** A call returns a value, blocks on the mutex, or dies of a runtime
    error. *)
Inductive res (A : Type) : Type :=
  | Val (a : A)
  | Block
  | Fault.
Arguments Val {A} a.
Arguments Block {A}.
Arguments Fault {A}.

Definition M (A : Type) : Type := State -> res (A * State).

#[global] Instance M_ret : MRet M := fun A a st => Val (a, st).
#[global] Instance M_bind : MBind M := fun A B k m st =>
  match m st with
  | Val (a, st') => k a st'
  | Block => Block
  | Fault => Fault
  end.

Definition get : M State := fun st => Val (st, st).
Definition modify (f : State -> State) : M unit := fun st => Val (tt, f st).

Definition set_connections (f : Connections -> Connections) (st : State) : State :=
  mkState (mkServer (addr (srv st)) (origin (srv st)) (certFile (srv st))
                    (keyFile (srv st)) (f (connections (srv st))))
          (net st) (tickers st) (spawned st) (next_conn st).
Definition set_mu (m : RWMutex) : State -> State :=
  set_connections (fun c => mkConnections m (registry c)).
Definition set_registry (f : gset positive -> gset positive) : State -> State :=
  set_connections (fun c => mkConnections (mu c) (f (registry c))).
Definition set_net (f : gmap positive Transport -> gmap positive Transport)
  (st : State) : State :=
  mkState (srv st) (f (net st)) (tickers st) (spawned st) (next_conn st).
Definition set_tickers (f : gset positive -> gset positive) (st : State) : State :=
  mkState (srv st) (net st) (f (tickers st)) (spawned st) (next_conn st).
Definition set_spawned (f : list (positive * list byte) -> list (positive * list byte))
  (st : State) : State :=
  mkState (srv st) (net st) (tickers st) (f (spawned st)) (next_conn st).

Definition the_mu (st : State) : RWMutex := mu (connections (srv st)).
Definition the_registry (st : State) : gset positive := registry (connections (srv st)).
Definition transport (st : State) (ws : Conn) : Transport :=
  default new_transport (net st !! ws).

(** *** The mutex *)

Definition Lock : M unit := fun st =>
  let m := the_mu st in
  if writer m || negb (Nat.eqb (readers m) 0) then Block
  else Val (tt, set_mu (mkRWMutex true (readers m)) st).

Definition Unlock : M unit := fun st =>
  let m := the_mu st in
  if writer m then Val (tt, set_mu (mkRWMutex false (readers m)) st)
  else Fault.

Definition RLock : M unit := fun st =>
  let m := the_mu st in
  if writer m then Block
  else Val (tt, set_mu (mkRWMutex false (S (readers m))) st).

Definition RUnlock : M unit := fun st =>
  let m := the_mu st in
  match readers m with
  | O => Fault
  | S n => Val (tt, set_mu (mkRWMutex (writer m) n) st)
  end.

(** *** The transport *)

(** [ws.Close()] *)
Definition ws_Close (ws : Conn) : M (option net_error) := fun st =>
  let t := transport st ws in
  Val (if Nat.eqb (t_closes t) 0 then None else Some ErrUseOfClosed,
       set_net <[ws := mkTransport (S (t_closes t)) (t_broken t) (t_writes t)
                                    (t_pings t) (t_frames t)]> st).

Definition send_error (t : Transport) : option net_error :=
  if negb (Nat.eqb (t_closes t) 0) then Some ErrUseOfClosed
  else if t_broken t then Some ErrBroken
  else None.

(** [ws.WriteMessage(websocket.BinaryMessage, tx)] *)
Definition ws_WriteMessage (ws : Conn) (tx : list byte) : M (option net_error) := fun st =>
  let t := transport st ws in
  let err := send_error t in
  Val (err,
       set_net <[ws := mkTransport (t_closes t) (t_broken t) (S (t_writes t)) (t_pings t)
                         (match err with
                          | None => t_frames t ++ [tx]
                          | Some _ => t_frames t
                          end)]> st).

(** [ws.WriteControl(websocket.PingMessage, ...)] *)
Definition ws_WriteControl (ws : Conn) : M (option net_error) := fun st =>
  let t := transport st ws in
  Val (send_error t,
       set_net <[ws := mkTransport (t_closes t) (t_broken t) (t_writes t) (S (t_pings t))
                                    (t_frames t)]> st).

(** ** The registry *)

(** The order in which [range] visits a map is not specified: [order] is
    the order of this run. *)
Section Registry.

Variable order : gset positive -> list positive.

Definition IsEmpty : M bool :=
  _ ← RLock;
  st ← get;
  let b := Nat.eqb (size (the_registry st)) 0 in
  _ ← RUnlock;
  mret b.

Definition Add (ws : Conn) : M unit :=
  _ ← Lock;
  _ ← modify (set_registry (fun m => {[ws]} ∪ m));
  Unlock.

Definition Delete (ws : Conn) : M (option net_error) :=
  _ ← Lock;
  _ ← modify (set_registry (fun m => m ∖ {[ws]}));
  err ← ws_Close ws;
  _ ← Unlock;
  mret err.

(** The [for ... range] of [Iter]: [false] when the visitor stopped it and
    the function returned from inside the loop. *)
Fixpoint Iter_range (fn : Conn -> M bool) (l : list positive) : M bool :=
  match l with
  | [] => mret true
  | ws :: l' =>
      b ← fn ws;
      if negb b then mret false else Iter_range fn l'
  end.

Definition Iter (fn : Conn -> M bool) : M unit :=
  _ ← RLock;
  st ← get;
  completed ← Iter_range fn (order (the_registry st));
  match completed with
  | true => RUnlock
  | false => mret tt   (* the return of line 61: no RUnlock *)
  end.

Definition Close : M unit :=
  Iter (fun ws => _ ← ws_Close ws; mret true).

End Registry.

(** ** The server *)

(** What the server reads of an [*http.Request]. *)
Record Request : Type := mkRequest {
  RemoteAddr : string;
  Header : gmap string (list string);
  handshake : bool     (* the request passes the other checks of the upgrade *)
}.

(** [r.Header.Get(key)]: the first value, or the empty string. *)
Definition Header_Get (h : gmap string (list string)) (key : string) : string :=
  match h !! key with
  | Some (v :: _) => v
  | _ => ""
  end.

Definition DefaultAddr : string := "127.0.0.1:8080".

Definition Option : Type := Server -> Server.

Definition Address (addr : string) : Option :=
  fun s => mkServer addr (origin s) (certFile s) (keyFile s) (connections s).

Definition Origin (origin : string) : Option :=
  fun s => mkServer (addr s) origin (certFile s) (keyFile s) (connections s).

Definition Secure (certFile keyFile : string) : Option :=
  fun s => mkServer (addr s) (origin s) certFile keyFile (connections s).

Definition NewServer (options : list Option) : Server :=
  fold_left (fun s apply => apply s) options
            (mkServer DefaultAddr "" "" "" NewConnections).

(** [s.upgrader.CheckOrigin], the closure of lines 64 to 69. *)
Definition CheckOrigin (s : Server) (r : Request) : bool :=
  if negb (String.eqb (origin s) "") then
    String.eqb (origin s) (Header_Get (Header r) "Origin")
  else true.

(** [s.upgrader.Upgrade(w, r, nil)] of gorilla/websocket: it answers with
    an error when the handshake is malformed or when [CheckOrigin]
    returns false, and otherwise hands out a new connection. *)
Definition Upgrade (r : Request) : M (positive + net_error) := fun st =>
  if negb (handshake r) then Val (inr ErrHandshake, st)
  else if negb (CheckOrigin (srv st) r) then Val (inr ErrForbidden, st)
  else
    let ws := next_conn st in
    Val (inl ws,
         mkState (srv st) (<[ws := new_transport]> (net st)) (tickers st)
                 (spawned st) (Pos.succ ws)).

(** One tick of the keep-alive goroutine of a connection (lines 114 to
    119); the goroutine goes on after a failed probe. *)
Definition keepalive_tick (ws : Conn) : M unit :=
  st ← get;
  if bool_decide (ws ∈ tickers st) then
    err ← ws_WriteControl ws;
    match err with
    | Some _ => _ ← ws_Close ws; mret tt
    | None => mret tt
    end
  else mret tt.

(** The close handler of lines 127 to 131.  The transport calls it from
    its read methods, on a close frame of the peer; the package never reads
    from a connection, so no run of the server calls it. *)
Definition closeHandler (ws : Conn) : M (option net_error) :=
  _ ← modify (set_tickers (fun t => t ∖ {[ws]}));
  Delete ws.

(** [HandleWS]: the upgrade, the keep-alive goroutine, the close handler
    (which the transport calls on a close frame of the peer, see
    [closeHandler]) and the registration.  The read limit, the read
    deadline and the pong handler only set deadlines of the transport,
    which has no clock here. *)
Definition HandleWS (r : Request) : M unit :=
  x ← Upgrade r;
  match x with
  | inr _ => mret tt                                   (* line 93 *)
  | inl ws =>
      _ ← modify (set_tickers (fun t => {[ws]} ∪ t));  (* lines 108 to 124 *)
      Add ws                                           (* line 133 *)
  end.

(** The goroutine [broadcast] starts for a connection (lines 203 to 210). *)
Definition write_task (ws : Conn) (tx : list byte) : M unit :=
  err ← ws_WriteMessage ws tx;
  match err with
  | Some _ => _ ← ws_Close ws; mret tt
  | None => mret tt
  end.

Fixpoint run_tasks (l : list (positive * list byte)) : M unit :=
  match l with
  | [] => mret tt
  | (ws, tx) :: l' => _ ← write_task ws tx; run_tasks l'
  end.

(** The goroutines started so far run, in the order they were started. *)
Definition run_spawned : M unit :=
  st ← get;
  _ ← modify (set_spawned (fun _ => []));
  run_tasks (spawned st).

Section Dispatch.

Variable order : gset positive -> list positive.

Definition broadcast (tx : list byte) : M unit :=
  Iter order (fun ws =>
    _ ← modify (set_spawned (fun l => l ++ [(ws, tx)]));
    mret true).

(** The teardown of [Start] when the context is done (line 149). *)
Definition shutdown : M unit := Close order.

End Dispatch.

(** ** Server.Watch: the two goroutines around the reader *)

(** Where the goroutine of lines 187 to 196 stands. *)
Inductive WatchPC : Set :=
  | WCall                                (* about to call r.Watch, line 192 *)
  | WSelect                              (* in the select of Watch *)
  | WSend                                (* in handleEvent, in the send of line 218 *)
  | WExit (err : option watch.error)     (* returned err, r.Close() has run *)
  | WPanic.

(** Where the scanner's goroutine (lines 178 to 185) stands in [r.Read]. *)
Inductive ReadPC : Set :=
  | RIdle
  | RRecv (blen : nat)                               (* in a receive, line 79 or 97 *)
  | RFile (blen : nat)                               (* at r.file.Read, line 85 *)
  | RRet (data : list byte) (err : option watch.error)   (* Read returned *)
  | RPanic.

Record Sys : Type := mkSys {
  world : watch.World;
  rd : watch.reader;
  wpc : WatchPC;
  rpc : ReadPC;
  stream : list byte;         (* the bytes the scanner was given *)
  seen_size : option Z        (* the last info.Size() handleEvent looked at *)
}.

Inductive Action : Type :=
  | AEnv (op : watch.EnvOp)                 (* another process changes the directory *)
  | AWatch                                  (* the watch goroutine calls r.Watch *)
  | ASelect (x : watch.selected)            (* its select receives x *)
  | ACall (blen : nat)                      (* the scanner calls r.Read(b), len(b) = blen *)
  | AResume.                                (* the scanner's goroutine goes on *)

(** The loop of lines 190 to 195 once [r.Watch] has returned [err]. *)
Definition Watch_returned (err : option watch.error) (s : Sys) : Sys :=
  if negb (bool_decide (err = Some watch.ErrFileOverwritten)) then
    match watch.Close (rd s) with
    | (watch.Return _, r') => mkSys (world s) r' (WExit err) (rpc s) (stream s) (seen_size s)
    | (watch.Panics, r') => mkSys (world s) r' WPanic (rpc s) (stream s) (seen_size s)
    end
  else mkSys (world s) (rd s) WCall (rpc s) (stream s) (seen_size s).

(** The goroutine calls [r.Watch(ctx, name)] and gets to the select, or
    [Watch] returns at once. *)
Definition watch_call (name : string) (s : Sys) : option Sys :=
  match wpc s with
  | WCall =>
      match watch.Watch_begin (world s) (rd s) name with
      | (watch.Return None, r') =>
          Some (mkSys (world s) r' WSelect (rpc s) (stream s) (seen_size s))
      | (watch.Return (Some err), r') =>
          Some (Watch_returned (Some err)
                  (mkSys (world s) r' WCall (rpc s) (stream s) (seen_size s)))
      | (watch.Panics, r') =>
          Some (mkSys (world s) r' WPanic (rpc s) (stream s) (seen_size s))
      end
  | _ => None
  end.

Definition observe (name : string) (x : watch.selected) (s : Sys) : option Z :=
  match x with
  | watch.OnEvent e =>
      if String.eqb (fsnotify.Name e) name then
        match watch.stat_seen (world s) e with
        | Some size => Some size
        | None => seen_size s
        end
      else seen_size s
  | _ => seen_size s
  end.


(** The select of [Watch] receives [x].  When the handler fails [Watch]
    returns: the deferred [r.file.Close()] runs and the loop of
    [Server.Watch] decides. *)
Definition watch_select (name : string) (x : watch.selected) (s : Sys) : option Sys :=
  match wpc s with
  | WSelect =>
      let seen := observe name x s in
      match watch.Watch_select name (world s) (rd s) x with
      | (None, r') =>
          Some (mkSys (world s) r'
                      (if watch.pending (watch.read r') then WSend else WSelect)
                      (rpc s) (stream s) seen)
      | (Some (watch.Return err), r') =>
          Some (Watch_returned err
                  (mkSys (world s) (snd (watch.close_file r')) WSelect
                         (rpc s) (stream s) seen))
      | (Some watch.Panics, r') =>
          Some (mkSys (world s) r' WPanic (rpc s) (stream s) seen)
      end
  | _ => None
  end.

(** The scanner calls [r.Read(b)]: the call starts in the receive of
    line 79. *)
Definition read_call (blen : nat) (s : Sys) : option Sys :=
  match rpc s with
  | RIdle | RRet _ None =>
      Some (mkSys (world s) (rd s) (wpc s) (RRecv blen) (stream s) (seen_size s))
  | _ => None
  end.

(** The next step of [Read].  In a receive (line 79 or 97): a pending send
    is received and the sender goes on, a closed channel returns
    [0, io.EOF], otherwise the goroutine stays blocked.  At line 85: one
    turn of the loop. *)
Definition read_resume (s : Sys) : option Sys :=
  match rpc s with
  | RRecv blen =>
      match watch.recv (rd s) with
      | watch.Received r' =>
          Some (mkSys (world s) r'
                      (match wpc s with WSend => WSelect | pc => pc end)
                      (RFile blen) (stream s) (seen_size s))
      | watch.ChanClosed =>
          Some (mkSys (world s) (rd s) (wpc s) (RRet [] (Some watch.EOF))
                      (stream s) (seen_size s))
      | watch.Blocked => None
      end
  | RFile blen =>
      match watch.Read_attempt (world s) (rd s) blen with
      | (watch.Done data err, r') =>
          Some (mkSys (world s) r' (wpc s) (RRet data err) (stream s ++ data) (seen_size s))
      | (watch.Again, r') =>
          Some (mkSys (world s) r' (wpc s) (RRecv blen) (stream s) (seen_size s))
      | (watch.Crash, r') =>
          Some (mkSys (world s) r' (wpc s) RPanic (stream s) (seen_size s))
      end
  | _ => None
  end.

(** One action of a schedule; [None] when the state does not allow it. *)
Definition step (name : string) (a : Action) (s : Sys) : option Sys :=
  match a with
  | AEnv op =>
      Some (mkSys (watch.env_step op (world s)) (rd s) (wpc s) (rpc s)
                  (stream s) (seen_size s))
  | AWatch => watch_call name s
  | ASelect x => watch_select name x s
  | ACall blen => read_call blen s
  | AResume => read_resume s
  end.

Fixpoint run (name : string) (sched : list Action) (s : Sys) : option Sys :=
  match sched with
  | [] => Some s
  | a :: sched' =>
      match step name a s with
      | Some s' => run name sched' s'
      | None => None
      end
  end.

(** [Server.Watch] starts from [watch.NewReader(watch.SeekEnd())]; the
    package allows any options. *)
Definition start (options : list watch.Option) (w : watch.World) : Sys :=
  mkSys w (watch.NewReader options) WCall RIdle [] None.

Definition Watch_start (w : watch.World) : Sys := start [watch.SeekEnd] w.

End broadcast.

(** * What the properties speak of *)

Module props.

Import broadcast.
Local Open Scope Z_scope.

(** No file is larger than the largest offset. *)
Definition world_ok (w : watch.World) : Prop :=
  map_Forall (fun _ data => watch.fits data = true) (watch.inodes w).

(** The options the package exports, with an [int64] argument. *)
Inductive package_option : watch.Option -> Prop :=
  | is_StartOffset (o : Z) : in_int64 o -> package_option (watch.StartOffset o)
  | is_SeekEnd : package_option watch.SeekEnd.

(** The offset is an [int64] and never lies beyond the position of the
    handle. *)
Definition reader_ok (r : watch.reader) : Prop :=
  in_int64 (watch.offset r) /\
  forall f, watch.file r = Some f -> watch.offset r <= watch.f_pos f.

Definition file_open (r : watch.reader) : Prop :=
  exists f, watch.file r = Some f /\ watch.f_closed f = false.

(** What holds of every state of a run of [Server.Watch]. *)
Record Inv (s : Sys) : Prop := mkInv {
  inv_world : world_ok (world s);
  inv_reader : reader_ok (rd s);
  inv_open : wpc s = WSelect \/ wpc s = WSend -> file_open (rd s);
  inv_closed : watch.ch_closed (watch.read (rd s)) = true ->
               exists err, wpc s = WExit err
}.


(** The transport of every connection was closed at most once. *)
Definition closed_at_most_once (st : State) : Prop :=
  forall ws, (t_closes (transport st ws) <= 1)%nat.

(** How many times the transport of [ws] was closed. *)
Definition closes (st : State) (ws : positive) : nat := t_closes (transport st ws).

(** The mutex is held by nobody. *)
Definition unlocked (st : State) : Prop := the_mu st = mkRWMutex false 0.

End props.

(** * Scenarios *)

(** Concrete files, events and readers on which the properties below are
    exercised. *)
Module scenario.

Import fsnotify.

Definition tx_log : string := "/var/log/tx".

(** A directory with the watched file, holding [data], as inode 0. *)
Definition log_with (data : list byte) : watch.World :=
  watch.mkWorld {[ tx_log := watch.Linked 0 ]} {[ 0%nat := data ]} 1 None None.

(** A directory in which the watched name does not exist. *)
Definition no_log : watch.World := watch.mkWorld ∅ ∅ 1 None None.

Definition write_ev : Event := mkEvent tx_log Write.
Definition remove_ev : Event := mkEvent tx_log Remove.
Definition rename_ev : Event := mkEvent tx_log Rename.

(** A reader inside [Watch], its handle on inode 0 at position [pos]. *)
Definition reader_at (off pos : Z) : watch.reader :=
  watch.mkReader off true (Some (watch.mkFile 0 pos false)) watch.make_chan.

(** [Server.Watch] inside [Watch], at the select. *)
Definition watching (w : watch.World) (off pos : Z) : broadcast.Sys :=
  broadcast.mkSys w (reader_at off pos) broadcast.WSelect broadcast.RIdle [] None.

Definition line_a : list byte := [x61; x0a].
Definition line_b : list byte := [x62; x0a].
Definition line_c : list byte := [x63; x0a].
Definition line_d : list byte := [x64; x0a].

(** *** Schedules of [Server.Watch] on an empty log *)

Import broadcast.

Definition buf : nat := 4096.

(** A line is appended, notified and read. *)
Definition append_and_read (line : list byte) : list Action :=
  [ACall buf; AEnv (watch.EAppend tx_log line);
   ASelect (watch.OnEvent write_ev); AResume; AResume].

(** Up to the point where [Read] is about to read the appended line. *)
Definition append_and_wake (line : list byte) : list Action :=
  [AWatch; ACall buf; AEnv (watch.EAppend tx_log line);
   ASelect (watch.OnEvent write_ev); AResume].

(** A second line lands between the [os.Stat] of the handler and the
    read it wakes. *)
Definition racing_append : list Action :=
  [AWatch; ACall buf; AEnv (watch.EAppend tx_log line_a);
   ASelect (watch.OnEvent write_ev);
   AEnv (watch.EAppend tx_log line_b); AResume; AResume].

(** The file is removed and created again with a line in it; the remove
    event is handled and [Watch] is called again. *)
Definition rotate (line : list byte) : list Action :=
  [AEnv (watch.ERemove tx_log); AEnv (watch.ECreate tx_log line);
   ASelect (watch.OnEvent remove_ev); AWatch].

Definition rotation_after_read : list Action :=
  AWatch :: append_and_read line_a ++ rotate line_c.

Definition rotation_before_read : list Action :=
  AWatch :: rotate line_c.

(** The context is cancelled while [Read] waits for a signal. *)
Definition cancel_while_waiting : list Action :=
  [AWatch; ACall buf; ASelect watch.OnDone; AResume].

(** The context is cancelled after [Read] was woken and before it reads:
    [Watch] has closed the file. *)
Definition cancel_before_read : list Action :=
  append_and_wake line_a ++ [ASelect watch.OnDone; AResume].

(** The state a schedule leads to. *)
Definition after (sched : list Action) (s : Sys) : Sys :=
  default s (run tx_log sched s).

(** *** Servers *)

Definition fresh_state (s : Server) : State := mkState s ∅ ∅ [] 1%positive.

Definition app_origin : string := "https://app.example".

Definition request_from (o : string) : Request :=
  mkRequest "203.0.113.7:40000" {[ "Origin" := [o] ]} true.

(** A server without origin restriction after two upgrades: connections
    1 and 2 are registered. *)
Definition two_subscribers : State :=
  match (_ ← HandleWS (request_from app_origin);
         HandleWS (request_from app_origin)) (fresh_state (NewServer [])) with
  | Val (_, st) => st
  | _ => fresh_state (NewServer [])
  end.

(** The peer of [ws] goes away without a close frame. *)
Definition break_transport (ws : positive) (st : State) : State :=
  let t := transport st ws in
  set_net <[ws := mkTransport (t_closes t) true (t_writes t) (t_pings t) (t_frames t)]> st.

Definition one_broken : State := break_transport 1 two_subscribers.

(** The state a call leaves, when it returns. *)
Definition then_ {A : Type} (m : M A) (st : State) : State :=
  match m st with
  | Val (_, st') => st'
  | _ => st
  end.

(** A line is broadcast and the write goroutines run. *)
Definition dispatch (tx : list byte) : M unit :=
  _ ← broadcast elements tx; run_spawned.

End scenario.

(** * Further notions *)

Module laws.

Import fsnotify.
Import broadcast.

(** The channel and the watch goroutine agree: a send is in flight exactly
    when the goroutine stands in it, the goroutine has not panicked, and
    it has closed the reader when it has returned. *)
Record Sync (s : Sys) : Prop := mkSync {
  sync_send : wpc s = WSend ->
              watch.ch_sent (watch.read (rd s)) = S (watch.ch_recvd (watch.read (rd s)));
  sync_rest : wpc s <> WSend ->
              watch.ch_sent (watch.read (rd s)) = watch.ch_recvd (watch.read (rd s));
  sync_sound : wpc s <> WPanic;
  sync_exit : forall err, wpc s = WExit err ->
              watch.ch_closed (watch.read (rd s)) = true
}.

(** An event of the watched file that only says it was written. *)
Definition plain_write (name : string) (e : Event) : Prop :=
  Name e = name /\ Has e Remove = false /\ Has e Rename = false /\ Has e Write = true.

(** The scanner is between two reads or about to start one, [Watch] is in
    its select, and the handle stands at the end of the watched file. *)
Definition caught_up (name : string) (s : Sys) : Prop :=
  wpc s = WSelect /\
  (rpc s = RIdle \/ exists d, rpc s = RRet d None) /\
  exists f,
    watch.file (rd s) = Some f /\ watch.f_closed f = false /\
    watch.names (world s) !! name = Some (watch.Linked (watch.f_ino f)) /\
    watch.f_pos f = watch.file_size (world s) (watch.f_ino f).


(** The same without an append: the event is a repeated one. *)
Definition redeliver (e : Event) (blen : nat) : list Action :=
  [ACall blen; ASelect (watch.OnEvent e); AResume; AResume].

(** The size of the file the watched name stands for, 0 when it stands
    for none. *)
Definition watched_size (name : string) (w : watch.World) : Z :=
  match watch.names w !! name with
  | Some (watch.Linked ino) => watch.file_size w ino
  | _ => 0%Z
  end.

(** The contents of that file. *)
Definition watched_contents (name : string) (w : watch.World) : list byte :=
  match watch.names w !! name with
  | Some (watch.Linked ino) => watch.contents w ino
  | _ => []
  end.

(** Nothing was read yet and nothing changed in the directory [w]: the
    reader of [Server.Watch] still has offset 0 and its handle, if any, is
    on the watched file, at its end. *)
Definition still (name : string) (w : watch.World) (s : Sys) : Prop :=
  stream s = [] /\ world s = w /\
  watch.offset (rd s) = 0%Z /\ watch.seekEnd (rd s) = true /\
  forall f, watch.file (rd s) = Some f ->
            watch.names w !! name = Some (watch.Linked (watch.f_ino f)) /\
            watch.f_pos f = watch.file_size w (watch.f_ino f).

(** The action leaves the directory alone. *)
Definition no_env (a : Action) : Prop :=
  match a with
  | AEnv _ => False
  | _ => True
  end.

(** What [write_task] leaves of a transport. *)
Definition written (tx : list byte) (t : Transport) : Transport :=
  match send_error t with
  | None => mkTransport (t_closes t) (t_broken t) (S (t_writes t)) (t_pings t)
                        (t_frames t ++ [tx])
  | Some _ => mkTransport (S (t_closes t)) (t_broken t) (S (t_writes t)) (t_pings t)
                          (t_frames t)
  end.

(** The options of the server other than [Origin]. *)
Inductive keeps_origin : broadcast.Option -> Prop :=
  | keeps_Address (a : string) : keeps_origin (Address a)
  | keeps_Secure (c k : string) : keeps_origin (Secure c k).

(** A log of one line, read through the handle: offset and position are
    at its end. *)
Definition read_to_end : Sys :=
  scenario.after (AWatch :: scenario.append_and_read scenario.line_a)
                 (Watch_start (scenario.log_with [])).

End laws.

(** * Properties *)

(** ** 64-bit arithmetic *)

Lemma wrap64_id z : in_int64 z -> wrap64 z = z.
Proof.
  unfold in_int64, min_int64, max_int64, wrap64. intros H.
  rewrite Z.mod_small; lia.
Qed.

Lemma wrap64_range z : in_int64 (wrap64 z).
Proof.
  unfold in_int64, min_int64, max_int64, wrap64.
  pose proof (Z.mod_pos_bound (z + 2 ^ 63) (2 ^ 64) ltac:(lia)). lia.
Qed.

(** ** The keep-alive policy *)

(** C10. The liveness deadline [pongWait] is 60 seconds, the probe period
    [pingPeriod] is nine tenths of it, 54 seconds, and so the first probe
    is due strictly before the deadline. *)
Theorem keepalive_policy :
  (broadcast.pongWait = 60 * broadcast.Second /\
   broadcast.pingPeriod = 54 * broadcast.Second /\
   10 * broadcast.pingPeriod = 9 * broadcast.pongWait /\
   0 < broadcast.pingPeriod < broadcast.pongWait)%Z.
Proof. vm_compute. repeat split; congruence. Qed.

Import fsnotify.
Import watch.

(** ** The event handler *)

Lemma chan_send_open (r : reader) :
  ch_closed (read r) = false ->
  chan_send r =
    (Return None, set_read (mkChan false (S (ch_sent (read r))) (ch_recvd (read r))) r).
Proof. unfold chan_send. intros ->. reflexivity. Qed.

Section HandleEvent.

Local Open Scope Z_scope.

Variables (w : World) (r : reader) (e : Event).

Lemma handleEvent_remove_gone :
  Has e Remove = true -> names w !! Name e = None ->
  handleEvent w r e = (Return (Some ErrFileDeleted), r).
Proof.
  intros Hrm Hno. unfold handleEvent, os_Stat. rewrite Hrm, Hno. reflexivity.
Qed.

Lemma handleEvent_remove_back ino :
  Has e Remove = true -> names w !! Name e = Some (Linked ino) ->
  handleEvent w r e = (Return (Some ErrFileOverwritten), r).
Proof.
  intros Hrm Hin. unfold handleEvent, os_Stat. rewrite Hrm, Hin. reflexivity.
Qed.

Lemma handleEvent_rename :
  Has e Remove = false -> Has e Rename = true ->
  handleEvent w r e = (Return (Some ErrFileRenamed), r).
Proof.
  intros Hrm Hrn. unfold handleEvent. rewrite Hrm, Hrn. reflexivity.
Qed.

Lemma handleEvent_other :
  Has e Remove = false -> Has e Rename = false -> Has e Write = false ->
  handleEvent w r e = (Return None, r).
Proof.
  intros Hrm Hrn Hwr. unfold handleEvent. rewrite Hrm, Hrn, Hwr. reflexivity.
Qed.

Lemma handleEvent_grow size :
  Has e Remove = false -> Has e Rename = false -> Has e Write = true ->
  os_Stat w (Name e) = inl size -> offset r < size ->
  handleEvent w r e = chan_send r.
Proof.
  intros Hrm Hrn Hwr Hst Hlt. unfold handleEvent.
  rewrite Hrm, Hrn, Hwr, Hst.
  destruct (Z.leb_spec size (offset r)); [lia | reflexivity].
Qed.

Lemma handleEvent_truncated size f :
  Has e Remove = false -> Has e Rename = false -> Has e Write = true ->
  os_Stat w (Name e) = inl size -> size <= offset r ->
  file r = Some f -> f_closed f = false ->
  handleEvent w r e =
    let r0 := set_offset 0 (set_file (Some (mkFile (f_ino f) 0 false)) r) in
    if size =? 0 then (Return None, r0) else chan_send r0.
Proof.
  intros Hrm Hrn Hwr Hst Hle Hf Hop. unfold handleEvent.
  rewrite Hrm, Hrn, Hwr, Hst, Hf.
  destruct (Z.leb_spec size (offset r)); [| lia].
  unfold File_Seek. rewrite Hop. reflexivity.
Qed.

(** C4. A write event on a file whose size is at most the offset seeks the
    handle to byte 0 and resets the offset, and sends no signal when the
    size is 0; in every other case (the size after the reset is positive,
    or the size exceeds the offset) exactly one signal is sent. *)
Theorem write_event (size : Z) :
  Has e Remove = false -> Has e Rename = false -> Has e Write = true ->
  os_Stat w (Name e) = inl size ->
  ch_closed (read r) = false ->
  (size <= offset r ->
   forall f, file r = Some f -> f_closed f = false ->
     exists r',
       handleEvent w r e = (Return None, r') /\
       offset r' = 0 /\
       file r' = Some (mkFile (f_ino f) 0 false) /\
       ch_sent (read r') =
         (if size =? 0 then ch_sent (read r) else S (ch_sent (read r)))) /\
  (offset r < size ->
     exists r',
       handleEvent w r e = (Return None, r') /\
       offset r' = offset r /\
       file r' = file r /\
       ch_sent (read r') = S (ch_sent (read r))).
Proof.
  intros Hrm Hrn Hwr Hst Hch. split.
  - intros Hle f Hf Hop.
    rewrite (handleEvent_truncated size f) by assumption. cbn zeta.
    destruct (size =? 0).
    + eexists. split; [reflexivity |]. auto.
    + rewrite chan_send_open by exact Hch. eexists. split; [reflexivity |]. auto.
  - intros Hlt. rewrite (handleEvent_grow size) by assumption.
    rewrite chan_send_open by exact Hch. eexists. split; [reflexivity |]. auto.
Qed.

End HandleEvent.

Lemma write_event_witness :
  (exists r',
     handleEvent (scenario.log_with scenario.line_a) (scenario.reader_at 5 5)
                 scenario.write_ev = (Return None, r') /\
     offset r' = 0%Z /\
     file r' = Some (mkFile 0 0 false) /\
     ch_sent (read r') = 1%nat) /\
  (exists r',
     handleEvent (scenario.log_with []) (scenario.reader_at 5 5)
                 scenario.write_ev = (Return None, r') /\
     offset r' = 0%Z /\
     file r' = Some (mkFile 0 0 false) /\
     ch_sent (read r') = 0%nat) /\
  (exists r',
     handleEvent (scenario.log_with scenario.line_a) (scenario.reader_at 0 0)
                 scenario.write_ev = (Return None, r') /\
     offset r' = 0%Z /\
     file r' = Some (mkFile 0 0 false) /\
     ch_sent (read r') = 1%nat).
Proof.
  split; [| split].
  - refine (proj1 (write_event (scenario.log_with scenario.line_a)
                     (scenario.reader_at 5 5) scenario.write_ev 2
                     eq_refl eq_refl eq_refl eq_refl eq_refl)
                  _ (mkFile 0 5 false) eq_refl eq_refl).
    vm_compute; congruence.
  - refine (proj1 (write_event (scenario.log_with [])
                     (scenario.reader_at 5 5) scenario.write_ev 0
                     eq_refl eq_refl eq_refl eq_refl eq_refl)
                  _ (mkFile 0 5 false) eq_refl eq_refl).
    vm_compute; congruence.
  - refine (proj2 (write_event (scenario.log_with scenario.line_a)
                     (scenario.reader_at 0 0) scenario.write_ev 2
                     eq_refl eq_refl eq_refl eq_refl eq_refl) _).
    reflexivity.
Defined.

(** ** The loop of Server.Watch *)

Import broadcast.

Lemma Watch_returned_overwritten (s : Sys) :
  Watch_returned (Some ErrFileOverwritten) s =
    mkSys (world s) (rd s) WCall (rpc s) (stream s) (seen_size s).
Proof. reflexivity. Qed.

Lemma Watch_returned_other (err : option error) (s : Sys) :
  err <> Some ErrFileOverwritten ->
  ch_closed (read (rd s)) = false ->
  Watch_returned err s =
    mkSys (world s)
          (set_read (mkChan true (ch_sent (read (rd s))) (ch_recvd (read (rd s)))) (rd s))
          (WExit err) (rpc s) (stream s) (seen_size s).
Proof.
  intros Hne Hch. unfold Watch_returned.
  rewrite bool_decide_eq_false_2 by exact Hne. cbn [negb].
  unfold watch.Close. rewrite Hch. reflexivity.
Qed.

Lemma Watch_returned_not_call (err : option error) (s : Sys) :
  err <> Some ErrFileOverwritten -> wpc (Watch_returned err s) <> WCall.
Proof.
  intros Hne. unfold Watch_returned.
  rewrite bool_decide_eq_false_2 by exact Hne. cbn [negb].
  destruct (watch.Close (rd s)) as [[?|] ?]; cbn; discriminate.
Qed.

Lemma exit_is_final (name : string) (err : option error) (s : Sys) :
  wpc s = WExit err ->
  step name AWatch s = None /\ forall x, step name (ASelect x) s = None.
Proof.
  intros H. cbn. unfold watch_call, watch_select. rewrite H. split; reflexivity.
Qed.

Lemma select_error_returns (name : string) (e : Event) (err : error) (s : Sys) :
  wpc s = WSelect -> Name e = name ->
  handleEvent (world s) (rd s) e = (Return (Some err), rd s) ->
  step name (ASelect (OnEvent e)) s =
    Some (Watch_returned (Some err)
            (mkSys (world s) (snd (close_file (rd s))) WSelect (rpc s) (stream s)
                   (observe name (OnEvent e) s))).
Proof.
  intros Hpc <- Hh. cbn. unfold watch_select, observe. rewrite Hpc.
  unfold Watch_select. rewrite String.eqb_refl. cbn [negb].
  rewrite Hh. reflexivity.
Qed.

(** C7. A remove event makes the handler fail with [ErrFileDeleted] when
    the path is gone and with [ErrFileOverwritten] when the path exists
    again; a rename event makes it fail with [ErrFileRenamed].  When the
    handler fails inside [Watch], the goroutine of [Server.Watch] calls
    [Watch] again exactly when the error is [ErrFileOverwritten]; with
    [ErrFileDeleted] or [ErrFileRenamed] (or any other error) it returns
    the error and takes no further step. *)
Theorem remove_and_rename_events
  (name : string) (w : World) (r : reader) (e : Event) (s : Sys) :
  (Has e Remove = true -> names w !! Name e = None ->
   handleEvent w r e = (Return (Some ErrFileDeleted), r)) /\
  (Has e Remove = true -> (exists ino, names w !! Name e = Some (Linked ino)) ->
   handleEvent w r e = (Return (Some ErrFileOverwritten), r)) /\
  (Has e Remove = false -> Has e Rename = true ->
   handleEvent w r e = (Return (Some ErrFileRenamed), r)) /\
  (wpc s = WSelect -> Name e = name -> ch_closed (read (rd s)) = false ->
   forall err, handleEvent (world s) (rd s) e = (Return (Some err), rd s) ->
     exists s',
       step name (ASelect (OnEvent e)) s = Some s' /\
       (wpc s' = WCall <-> err = ErrFileOverwritten) /\
       (err <> ErrFileOverwritten ->
        wpc s' = WExit (Some err) /\
        step name AWatch s' = None /\
        forall x, step name (ASelect x) s' = None)).
Proof.
  split; [| split; [| split]].
  - apply handleEvent_remove_gone.
  - intros Hrm [ino Hin]. eapply handleEvent_remove_back; eassumption.
  - apply handleEvent_rename.
  - intros Hpc Hn Hch err Hh.
    rewrite (select_error_returns name e err s Hpc Hn Hh).
    eexists. split; [reflexivity |].
    destruct (decide (err = ErrFileOverwritten)) as [-> | Hne].
    + rewrite Watch_returned_overwritten. cbn. split; [tauto | congruence].
    + assert (Hne' : Some err <> Some ErrFileOverwritten) by congruence.
      split.
      * split; [| tauto]. intros Hc.
        exfalso. revert Hc. apply Watch_returned_not_call. exact Hne'.
      * intros _. rewrite Watch_returned_other.
        -- split; [reflexivity |]. apply (exit_is_final name (Some err)). reflexivity.
        -- exact Hne'.
        -- cbn. unfold close_file. destruct (file (rd s)); cbn; exact Hch.
Qed.

Lemma remove_and_rename_events_witness :
  handleEvent scenario.no_log (scenario.reader_at 2 2) scenario.remove_ev =
    (Return (Some ErrFileDeleted), scenario.reader_at 2 2) /\
  handleEvent (scenario.log_with scenario.line_c) (scenario.reader_at 2 2)
              scenario.remove_ev =
    (Return (Some ErrFileOverwritten), scenario.reader_at 2 2) /\
  handleEvent scenario.no_log (scenario.reader_at 2 2) scenario.rename_ev =
    (Return (Some ErrFileRenamed), scenario.reader_at 2 2) /\
  exists s',
    step scenario.tx_log (ASelect (OnEvent scenario.remove_ev))
         (scenario.watching scenario.no_log 2 2) = Some s' /\
    (wpc s' = WCall <-> ErrFileDeleted = ErrFileOverwritten) /\
    (ErrFileDeleted <> ErrFileOverwritten ->
     wpc s' = WExit (Some ErrFileDeleted) /\
     step scenario.tx_log AWatch s' = None /\
     forall x, step scenario.tx_log (ASelect x) s' = None).
Proof.
  pose (T := fun w e =>
    remove_and_rename_events scenario.tx_log w (scenario.reader_at 2 2) e
      (scenario.watching scenario.no_log 2 2)).
  split; [| split; [| split]].
  - exact (proj1 (T scenario.no_log scenario.remove_ev) eq_refl eq_refl).
  - exact (proj1 (proj2 (T (scenario.log_with scenario.line_c) scenario.remove_ev))
                 eq_refl (ex_intro _ 0%nat eq_refl)).
  - exact (proj1 (proj2 (proj2 (T scenario.no_log scenario.rename_ev)))
                 eq_refl eq_refl).
  - exact (proj2 (proj2 (proj2 (T scenario.no_log scenario.remove_ev)))
                 eq_refl eq_refl eq_refl ErrFileDeleted eq_refl).
Defined.

(** ** What every run of Server.Watch keeps *)

Import props.

Section Invariant.

Local Open Scope Z_scope.

Lemma fits_spec (data : list byte) :
  fits data = true <-> Z.of_nat (length data) <= max_int64.
Proof. unfold fits. apply Z.leb_le. Qed.

Lemma contents_fit (w : World) (ino : nat) :
  world_ok w -> fits (contents w ino) = true.
Proof.
  intros Hw. unfold contents.
  destruct (inodes w !! ino) as [data |] eqn:E; cbn.
  - exact (Hw ino data E).
  - reflexivity.
Qed.

Lemma file_size_bound (w : World) (ino : nat) :
  world_ok w -> 0 <= file_size w ino <= max_int64.
Proof.
  intros Hw. pose proof (contents_fit w ino Hw) as H.
  apply fits_spec in H. unfold file_size. lia.
Qed.

Lemma set_contents_ok (w : World) (ino : nat) (data : list byte) :
  world_ok w -> fits data = true -> world_ok (set_contents ino data w).
Proof.
  intros Hw Hd. unfold world_ok, set_contents. cbn.
  apply map_Forall_insert_2; assumption.
Qed.

Lemma env_step_ok (op : EnvOp) (w : World) :
  world_ok w -> world_ok (env_step op w).
Proof.
  intros Hw. destruct op as [name data | name size | name | name data | name to]; cbn.
  - destruct (names w !! name) as [[ino | c] |]; try assumption.
    destruct (fits (contents w ino ++ data)) eqn:E; [| assumption].
    apply set_contents_ok; assumption.
  - destruct (names w !! name) as [[ino | c] |]; try assumption.
    apply set_contents_ok; [assumption |].
    pose proof (contents_fit w ino Hw) as H. apply fits_spec in H.
    apply fits_spec. rewrite length_take. lia.
  - exact Hw.
  - destruct (names w !! name); [assumption |].
    destruct (fits data) eqn:E; [| assumption].
    unfold world_ok. cbn. apply map_Forall_insert_2; assumption.
  - destruct (names w !! name); exact Hw.
Qed.

(** *** Opening *)

Lemma openFile_pos (w : World) (r : reader) (name : string) (f : File) :
  world_ok w -> openFile w r name = inl f ->
  f_closed f = false /\
  f_pos f = (if 0 <? offset r then offset r
             else if seekEnd r then file_size w (f_ino f) else 0).
Proof.
  intros Hw. unfold openFile, os_Open.
  destruct (names w !! name) as [[ino | c] |]; try discriminate.
  destruct (Z.ltb_spec 0 (offset r)) as [Hpos | Hnp].
  - unfold File_Seek. cbn.
    destruct (Z.ltb_spec (offset r) 0); [lia |].
    intros [= <-]. cbn. auto.
  - destruct (seekEnd r).
    + unfold File_Seek. cbn.
      pose proof (file_size_bound w ino Hw).
      destruct (Z.ltb_spec (file_size w ino + 0) 0); [lia |].
      intros [= <-]. cbn. split; [reflexivity | lia].
    + intros [= <-]. cbn. auto.
Qed.

Lemma openFile_ok (w : World) (r : reader) (name : string) (f : File) :
  world_ok w -> openFile w r name = inl f -> offset r <= f_pos f.
Proof.
  intros Hw Ho. destruct (openFile_pos w r name f Hw Ho) as [_ ->].
  pose proof (file_size_bound w (f_ino f) Hw).
  destruct (Z.ltb_spec 0 (offset r)); [lia |].
  destruct (seekEnd r); lia.
Qed.

Lemma close_file_ok (r : reader) : reader_ok r -> reader_ok (close_file r).2.
Proof.
  intros [Hi Hp]. unfold close_file.
  destruct (file r) as [f |] eqn:E; cbn; [| split; [assumption | rewrite E; discriminate]].
  split; [exact Hi |]. cbn. intros f' [= <-].
  unfold File_Close. destruct (f_closed f); cbn; apply Hp; reflexivity.
Qed.

Lemma close_file_read (r : reader) : read (close_file r).2 = read r.
Proof. unfold close_file. destruct (file r); reflexivity. Qed.

Lemma Watch_begin_offset (w : World) (r : reader) (name : string) :
  offset (Watch_begin w r name).2 = offset r /\
  read (Watch_begin w r name).2 = read r.
Proof.
  unfold Watch_begin.
  destruct (openFile w r name); [| cbn; auto].
  destruct (new_watcher_err w); [cbn; unfold close_file; cbn; auto |].
  destruct (watcher_add_err w); cbn; auto.
Qed.

Lemma Watch_begin_ok (w : World) (r : reader) (name : string) :
  world_ok w -> reader_ok r -> reader_ok (Watch_begin w r name).2.
Proof.
  intros Hw [Hi Hp]. unfold Watch_begin.
  destruct (openFile w r name) as [f | err] eqn:E.
  - pose proof (openFile_ok w r name f Hw E) as Hle.
    assert (Hr : reader_ok (set_file (Some f) r)).
    { split; [exact Hi |]. cbn. intros f' [= <-]. exact Hle. }
    destruct (new_watcher_err w); [apply close_file_ok; exact Hr |].
    destruct (watcher_add_err w); [apply close_file_ok; exact Hr | exact Hr].
  - cbn. split; [exact Hi | cbn; discriminate].
Qed.

Lemma Watch_begin_open (w : World) (r r' : reader) (name : string) :
  world_ok w -> Watch_begin w r name = (Return None, r') -> file_open r'.
Proof.
  intros Hw. unfold Watch_begin.
  destruct (openFile w r name) as [f | err] eqn:E; [| discriminate].
  destruct (new_watcher_err w); [discriminate |].
  destruct (watcher_add_err w); [discriminate |].
  intros [= <-]. exists f. split; [reflexivity |].
  apply (openFile_pos w r name f Hw E).
Qed.

End Invariant.

Section InvariantSteps.

Local Open Scope Z_scope.

(** *** The handler *)

Ltac handle_cases :=
  unfold handleEvent, stat_seen, chan_send, File_Seek;
  repeat case_match; simplify_eq/=.

Lemma handleEvent_closed (w : World) (r : reader) (e : Event) :
  ch_closed (read (handleEvent w r e).2) = ch_closed (read r).
Proof. handle_cases; congruence. Qed.


Lemma handleEvent_ok (w : World) (r : reader) (e : Event) :
  reader_ok r -> reader_ok (handleEvent w r e).2.
Proof.
  intros [Hi Hp]. unfold reader_ok, in_int64, min_int64, max_int64 in *.
  handle_cases; (split; [lia |]); cbn; intros; simplify_eq/=; auto; lia.
Qed.

Lemma handleEvent_open (w : World) (r : reader) (e : Event) :
  file_open r -> file_open (handleEvent w r e).2.
Proof.
  intros (f & Hf & Hc). unfold file_open.
  handle_cases; eauto.
Qed.


(** *** One turn of Read *)

Lemma File_Read_facts (w : World) (f f' : File) (blen : nat) (data : list byte)
    (err : option error) :
  File_Read w f blen = (data, err, f') ->
  f_closed f' = f_closed f /\
  f_pos f' = f_pos f + Z.of_nat (length data) /\
  (data <> [] -> err = None /\
                 f_pos f + Z.of_nat (length data) <= file_size w (f_ino f)) /\
  (err = None \/ err = Some EOF \/ err = Some ErrClosed).
Proof.
  unfold File_Read.
  destruct (f_closed f) eqn:Hc.
  { intros [= <- <- <-]. cbn. repeat split; auto; try lia; congruence. }
  destruct (Nat.eqb blen 0).
  { intros [= <- <- <-]. cbn. repeat split; auto; try lia; congruence. }
  destruct (take blen (drop (Z.to_nat (f_pos f)) (contents w (f_ino f)))) as [| b got] eqn:E.
  { intros [= <- <- <-]. cbn. repeat split; auto; try lia; congruence. }
  intros [= <- <- <-]. cbn [f_closed f_pos]. repeat split; auto.
  pose proof (f_equal length E) as HL.
  rewrite length_take, length_drop in HL. cbn [length] in HL.
  unfold file_size. cbn [length]. lia.
Qed.

(** Whatever the file returns, a turn ends the call with an error that is
    neither nil nor [io.EOF] and the offset untouched, or with at least
    one byte, no error and the offset advanced in [int64]; with no byte
    and no such error the call does not return. *)
Lemma Read_result_cases (data : list byte) (err : option error) (r : reader) :
  match Read_result data err r with
  | (Done d e, r') =>
      d = data /\
      ((e = err /\ err <> None /\ err <> Some EOF /\ r' = r) \/
       (e = None /\ data <> [] /\ (err = None \/ err = Some EOF) /\
        r' = set_offset (wrap64 (offset r + Z.of_nat (length data))) r))
  | (Again, r') => data = [] /\ (err = None \/ err = Some EOF) /\ r' = r
  | (Crash, _) => False
  end.
Proof.
  unfold Read_result, is_EOF.
  destruct (bool_decide_reflect (err = None)) as [Hn | Hn];
    destruct (bool_decide_reflect (err = Some EOF)) as [He | He]; cbn;
    try (split; [reflexivity |]; left; auto; fail);
    (destruct (Z.ltb_spec 0 (Z.of_nat (length data))) as [Hpos | Hpos];
     [ split; [reflexivity |]; right;
       repeat split; auto; intros ->; cbn in Hpos; lia
     | repeat split; auto; destruct data; [reflexivity | cbn in Hpos; lia] ]).
Qed.

Lemma Read_attempt_read (w : World) (r : reader) (blen : nat) :
  read (Read_attempt w r blen).2 = read r.
Proof.
  unfold Read_attempt, Read_result. destruct (file r); [| reflexivity].
  destruct (File_Read w f blen) as [[data err] f'].
  repeat case_match; reflexivity.
Qed.

Lemma Read_attempt_open (w : World) (r : reader) (blen : nat) :
  file_open r -> file_open (Read_attempt w r blen).2.
Proof.
  intros (f & Hf & Hc). unfold Read_attempt, Read_result. rewrite Hf.
  destruct (File_Read w f blen) as [[data err] f'] eqn:E.
  apply File_Read_facts in E as (Hc' & _).
  exists f'. split; [repeat case_match; reflexivity | congruence].
Qed.

(** What a turn that ends the call returns, and what it does to the
    offset. *)
Lemma Read_attempt_spec (w : World) (r : reader) (blen : nat) :
  world_ok w -> reader_ok r ->
  match Read_attempt w r blen with
  | (Done data err, r') =>
      (data <> [] /\ err = None /\
       offset r' = offset r + Z.of_nat (length data)) \/
      (exists e f, err = Some e /\ e <> EOF /\ file r = Some f /\
                   (File_Read w f blen).1 = (data, Some e) /\
                   offset r' = offset r)
  | (Again, r') => offset r' = offset r
  | (Crash, r') => r' = r
  end /\
  reader_ok (Read_attempt w r blen).2.
Proof.
  intros Hw [Hi Hp]. unfold Read_attempt, Read_result.
  destruct (file r) as [f |] eqn:Hf; [| split; [reflexivity | split; [assumption |]];
                                        cbn; rewrite Hf; discriminate].
  destruct (File_Read w f blen) as [[data err] f'] eqn:E.
  pose proof (File_Read_facts w f f' blen data err E) as (Hc & Hpos & Hdata & Herr).
  specialize (Hp f eq_refl).
  pose proof (file_size_bound w (f_ino f) Hw) as Hsz.
  unfold reader_ok, in_int64, min_int64, max_int64 in *.
  destruct (negb (bool_decide (err = None)) && negb (is_EOF err)) eqn:Hb.
  - apply andb_true_iff in Hb as [Hb1 Hb2].
    apply negb_true_iff, bool_decide_eq_false in Hb1.
    apply negb_true_iff, bool_decide_eq_false in Hb2.
    destruct err as [e |]; [| congruence].
    split.
    + right. exists e, f. cbn. repeat split; auto; [congruence |].
      rewrite E. reflexivity.
    + cbn. split; [lia |]. intros f0 [= <-].
      destruct data; [cbn in Hpos; lia | destruct Hdata as [? _]; congruence].
  - destruct (Z.ltb_spec 0 (Z.of_nat (length data))) as [Hn | Hn].
    + assert (Hne : data <> []) by (destruct data; [cbn in Hn; lia | discriminate]).
      destruct (Hdata Hne) as [-> Hle].
      cbn [set_offset set_file offset file snd].
      rewrite wrap64_id by (unfold in_int64, min_int64, max_int64; lia).
      split.
      * left. auto.
      * split; [lia |]. intros f0 [= <-]. lia.
    + split; [reflexivity |]. cbn. split; [lia |]. intros f0 [= <-]. lia.
Qed.

End InvariantSteps.

Section Runs.

Local Open Scope Z_scope.

Variable name : string.

Lemma not_closed_unless_exit (s : Sys) :
  Inv s -> (forall err, wpc s <> WExit err) -> ch_closed (read (rd s)) = false.
Proof.
  intros HI Hne. destruct (ch_closed (read (rd s))) eqn:E; [| reflexivity].
  destruct (inv_closed s HI E) as [err Herr]. destruct (Hne err Herr).
Qed.


Lemma Watch_returned_Inv (err : option error) (s : Sys) :
  world_ok (world s) -> reader_ok (rd s) ->
  ch_closed (read (rd s)) = false ->
  Inv (Watch_returned err s).
Proof.
  intros Hw Hr Hc.
  destruct (decide (err = Some ErrFileOverwritten)) as [-> | Hne].
  - rewrite Watch_returned_overwritten. split; cbn; try assumption.
    + intros [? | ?]; discriminate.
    + congruence.
  - rewrite Watch_returned_other by assumption. split; cbn; try assumption.
    + intros [? | ?]; discriminate.
    + eauto.
Qed.

Lemma Watch_select_facts (w : World) (r : reader) (x : selected) :
  ch_closed (read (Watch_select name w r x).2) = ch_closed (read r) /\
  (reader_ok r -> reader_ok (Watch_select name w r x).2) /\
  (file_open r -> file_open (Watch_select name w r x).2).
Proof.
  unfold Watch_select. destruct x as [e | [err |] |]; cbn; auto.
  destruct (negb (String.eqb (Name e) name)); cbn; auto.
  pose proof (handleEvent_closed w r e).
  pose proof (handleEvent_ok w r e).
  pose proof (handleEvent_open w r e).
  destruct (handleEvent w r e) as [[[err |] |] r']; cbn in *; auto.
Qed.

Lemma step_Inv (a : Action) (s s' : Sys) :
  Inv s -> step name a s = Some s' -> Inv s'.
Proof.
  intros HI. pose proof HI as [Hw Hr Ho Hc].
  destruct a as [op | | x | blen |]; cbn.
  - intros [= <-]. split; cbn; auto using env_step_ok.
  - unfold watch_call. destruct (wpc s) eqn:Hpc; try discriminate.
    assert (Hcl : ch_closed (read (rd s)) = false)
      by (apply not_closed_unless_exit; [assumption | congruence]).
    pose proof (Watch_begin_ok (world s) (rd s) name Hw Hr) as Hr'.
    pose proof (Watch_begin_offset (world s) (rd s) name) as [_ Hrd].
    destruct (Watch_begin (world s) (rd s) name) as [[[err |] |] r'] eqn:E;
      cbn in Hr', Hrd; intros [= <-].
    + apply Watch_returned_Inv; cbn; try assumption; congruence.
    + split; cbn; auto.
      * intros _. apply (Watch_begin_open (world s) (rd s) r' name Hw E).
      * congruence.
    + split; cbn; auto; [intros [? | ?]; discriminate | congruence].
  - unfold watch_select. destruct (wpc s) eqn:Hpc; try discriminate.
    assert (Hcl : ch_closed (read (rd s)) = false)
      by (apply not_closed_unless_exit; [assumption | congruence]).
    pose proof (Watch_select_facts (world s) (rd s) x) as (Hc' & Hr' & Ho').
    specialize (Hr' Hr). specialize (Ho' (Ho (or_introl eq_refl))).
    destruct (Watch_select name (world s) (rd s) x) as [[[err |] |] r'];
      cbn in Hc', Hr', Ho'; intros [= <-].
    + apply Watch_returned_Inv; cbn; auto using close_file_ok.
      rewrite close_file_read. congruence.
    + split; cbn; auto. congruence.
    + split; cbn; auto. congruence.
  - unfold read_call. destruct (rpc s) as [| | | data [err |] |]; try discriminate;
      intros [= <-]; split; cbn; auto.
  - unfold read_resume. destruct (rpc s) as [| blen | blen | |]; try discriminate.
    + unfold recv. destruct (pending (read (rd s))).
      * intros [= <-]. destruct Hr as [Hi Hp]. split; cbn; auto.
        -- split; assumption.
        -- intros Hpc. apply Ho. destruct (wpc s); destruct Hpc; try discriminate; auto.
        -- intros Hcl. destruct (Hc Hcl) as [err ->]. eauto.
      * destruct (ch_closed (read (rd s))); [| discriminate].
        intros [= <-]. split; cbn; auto.
    + pose proof (Read_attempt_spec (world s) (rd s) blen Hw Hr) as [_ Hr'].
      pose proof (Read_attempt_read (world s) (rd s) blen) as Hrd.
      pose proof (Read_attempt_open (world s) (rd s) blen) as Hop.
      destruct (Read_attempt (world s) (rd s) blen) as [[data err | |] r'];
        cbn in Hr', Hrd, Hop; intros [= <-]; split; cbn; auto; rewrite Hrd; auto.
Qed.

Lemma run_Inv (sched : list Action) (s s' : Sys) :
  Inv s -> run name sched s = Some s' -> Inv s'.
Proof.
  revert s. induction sched as [| a sched IH]; intros s HI; cbn.
  - intros [= <-]. exact HI.
  - destruct (step name a s) as [s1 |] eqn:E; [| discriminate].
    apply IH. exact (step_Inv a s s1 HI E).
Qed.

Lemma NewReader_fields (options : list watch.Option) :
  Forall package_option options ->
  in_int64 (offset (NewReader options)) /\
  file (NewReader options) = None /\
  read (NewReader options) = make_chan.
Proof.
  unfold NewReader.
  assert (H0 : in_int64 (offset (mkReader 0 false None make_chan)) /\
               file (mkReader 0 false None make_chan) = None /\
               read (mkReader 0 false None make_chan) = make_chan).
  { cbn. unfold in_int64, min_int64, max_int64. repeat split; lia. }
  revert H0. generalize (mkReader 0 false None make_chan).
  induction options as [| o options IH]; intros r0 H0 HF; cbn; [exact H0 |].
  inversion HF as [| ? ? Ho HF']; subst. apply IH; [| exact HF'].
  destruct H0 as (Hi & Hf & Hc). inversion Ho; subst; cbn; auto.
Qed.

Lemma start_Inv (options : list watch.Option) (w : World) :
  world_ok w -> Forall package_option options -> Inv (start options w).
Proof.
  intros Hw HF. destruct (NewReader_fields options HF) as (Hi & Hf & Hc).
  split; cbn.
  - exact Hw.
  - split; [exact Hi | rewrite Hf; discriminate].
  - intros [? | ?]; discriminate.
  - rewrite Hc. discriminate.
Qed.


End Runs.

(** ** Read and the offset over the runs of Server.Watch *)

Section ReadAndOffset.

Local Open Scope Z_scope.

Variables (name : string) (options : list watch.Option) (w : World).
Hypothesis w_ok : world_ok w.
Hypothesis options_ok : Forall package_option options.

(** C5. Whenever [Read] returns, it returns (a) some bytes and no error,
    the offset advanced by their number, or (b) an error of the file that
    is not [io.EOF], or (c) no byte and [io.EOF], the channel having been
    closed by [Close]; it never returns no byte and no error. *)
Theorem Read_returns (sched : list Action) (s s' : Sys)
    (data : list byte) (err : option error) :
  run name sched (start options w) = Some s ->
  step name AResume s = Some s' ->
  rpc s' = RRet data err ->
  ((data <> [] /\ err = None /\
    offset (rd s') = offset (rd s) + Z.of_nat (length data) /\
    stream s' = stream s ++ data) \/
   (exists e f blen,
      err = Some e /\ e <> EOF /\ file (rd s) = Some f /\
      (File_Read (world s) f blen).1 = (data, Some e)) \/
   (data = [] /\ err = Some EOF /\
    ch_closed (read (rd s)) = true /\ exists werr, wpc s = WExit werr)) /\
  ~ (data = [] /\ err = None).
Proof.
  intros Hrun Hstep Hret.
  pose proof (run_Inv name sched _ s (start_Inv options w w_ok options_ok) Hrun) as HI.
  assert (Hcases :
    (data <> [] /\ err = None /\
     offset (rd s') = offset (rd s) + Z.of_nat (length data) /\
     stream s' = stream s ++ data) \/
    (exists e f blen,
       err = Some e /\ e <> EOF /\ file (rd s) = Some f /\
       (File_Read (world s) f blen).1 = (data, Some e)) \/
    (data = [] /\ err = Some EOF /\
     ch_closed (read (rd s)) = true /\ exists werr, wpc s = WExit werr)).
  { revert Hstep. cbn. unfold read_resume.
    destruct (rpc s) as [| blen | blen | |]; try discriminate.
    - unfold recv. destruct (pending (read (rd s))).
      + intros [= <-]. cbn in Hret. discriminate.
      + destruct (ch_closed (read (rd s))) eqn:Hcl; [| discriminate].
        intros [= <-]. cbn in Hret. injection Hret as <- <-.
        right. right. repeat split; auto. apply (inv_closed s HI Hcl).
    - pose proof (Read_attempt_spec (world s) (rd s) blen
                    (inv_world s HI) (inv_reader s HI)) as [Hsp _].
      destruct (Read_attempt (world s) (rd s) blen) as [[data' err' | |] r'];
        intros [= <-]; cbn in Hret; try discriminate.
      injection Hret as <- <-. cbn.
      destruct Hsp as [(Hne & -> & Hoff) | (e & f & -> & Hne & Hf & Hfr & _)].
      + left. auto.
      + right. left. exists e, f, blen. auto. }
  split; [exact Hcases |].
  intros [-> ->].
  destruct Hcases as [(Hne & _) | [(e & f & blen & He & _) | (_ & He & _)]];
    congruence.
Qed.


End ReadAndOffset.

Lemma log_with_ok (data : list byte) :
  fits data = true -> world_ok (scenario.log_with data).
Proof. intros H. unfold world_ok. cbn. apply map_Forall_singleton. exact H. Qed.

Lemma SeekEnd_only : Forall package_option [SeekEnd].
Proof. repeat constructor. Qed.

Lemma Read_returns_witness :
  let s := scenario.after (scenario.append_and_wake scenario.line_a)
                          (Watch_start (scenario.log_with [])) in
  let s' := scenario.after [AResume] s in
  ((scenario.line_a <> [] /\ @None error = None /\
    offset (rd s') = (offset (rd s) + Z.of_nat (length scenario.line_a))%Z /\
    stream s' = stream s ++ scenario.line_a) \/
   (exists e f blen,
      None = Some e /\ e <> EOF /\ file (rd s) = Some f /\
      (File_Read (world s) f blen).1 = (scenario.line_a, Some e)) \/
   (scenario.line_a = [] /\ None = Some EOF /\
    ch_closed (read (rd s)) = true /\ exists werr, wpc s = WExit werr)) /\
  ~ (scenario.line_a = [] /\ @None error = None).
Proof.
  intros s s'.
  apply (Read_returns scenario.tx_log [SeekEnd] (scenario.log_with [])
           (log_with_ok [] eq_refl) SeekEnd_only
           (scenario.append_and_wake scenario.line_a) s s' scenario.line_a None).
  - vm_compute. reflexivity.
  - vm_compute. reflexivity.
  - vm_compute. reflexivity.
Defined.

(** The three kinds of return all occur. *)
Example Read_return_kinds :
  let s0 := Watch_start (scenario.log_with []) in
  rpc (scenario.after (scenario.append_and_wake scenario.line_a ++ [AResume]) s0)
    = RRet scenario.line_a None /\
  rpc (scenario.after scenario.cancel_before_read s0) = RRet [] (Some ErrClosed) /\
  rpc (scenario.after scenario.cancel_while_waiting s0) = RRet [] (Some EOF).
Proof. vm_compute. repeat split; reflexivity. Qed.



(** C1 on the failing input. With one line read (offset 2) the file is
    removed and created again holding the line "c": [Watch] returns
    [ErrFileOverwritten], is called again, and opens the new file at
    position 2, its end, not at 0.  A line "d" appended afterwards is read;
    the line "c" never reaches the scanner.  With nothing read before the
    rotation the new file is opened at its end as well. *)
Theorem reopen_at_stale_offset :
  let s0 := Watch_start (scenario.log_with []) in
  (exists s1 s2,
     run scenario.tx_log scenario.rotation_after_read s0 = Some s1 /\
     wpc s1 = WSelect /\
     offset (rd s1) = 2%Z /\
     file (rd s1) = Some (mkFile 1 2 false) /\
     contents (world s1) 1 = scenario.line_c /\
     run scenario.tx_log (scenario.append_and_read scenario.line_d) s1 = Some s2 /\
     stream s2 = scenario.line_a ++ scenario.line_d) /\
  (exists s1,
     run scenario.tx_log scenario.rotation_before_read s0 = Some s1 /\
     wpc s1 = WSelect /\
     file (rd s1) = Some (mkFile 1 2 false) /\
     contents (world s1) 1 = scenario.line_c).
Proof.
  split.
  - eexists. eexists. split; [vm_compute; reflexivity |].
    do 4 (split; [reflexivity |]).
    split; [vm_compute; reflexivity | reflexivity].
  - eexists. split; [vm_compute; reflexivity |].
    repeat split; reflexivity.
Qed.

(** ** The origin check *)

Lemma NewServer_Origin (o : string) : origin (NewServer [Origin o]) = o.
Proof. reflexivity. Qed.

Lemma CheckOrigin_spec (s : Server) (r : Request) :
  CheckOrigin s r = true <->
  origin s = "" \/ origin s = Header_Get (Header r) "Origin".
Proof.
  unfold CheckOrigin.
  destruct (String.eqb_spec (origin s) "") as [-> | Hne]; cbn.
  - tauto.
  - rewrite String.eqb_eq. tauto.
Qed.

(** C8. With a non-empty allowed origin the check succeeds exactly when the
    Origin header of the request equals it, and a request with another
    origin leaves the server as it was: no connection, nothing registered.
    With an empty allowed origin the check succeeds for every request.  A
    request that passes the check and the rest of the handshake is
    registered. *)
Theorem origin_enforcement (st : State) (r : Request) :
  (origin (srv st) <> "" ->
   (CheckOrigin (srv st) r = true <->
    Header_Get (Header r) "Origin" = origin (srv st))) /\
  (origin (srv st) = "" -> CheckOrigin (srv st) r = true) /\
  (origin (srv st) <> "" ->
   Header_Get (Header r) "Origin" <> origin (srv st) ->
   HandleWS r st = Val (tt, st)) /\
  (CheckOrigin (srv st) r = true -> handshake r = true -> unlocked st ->
   exists st',
     HandleWS r st = Val (tt, st') /\
     the_registry st' = {[next_conn st]} ∪ the_registry st /\
     unlocked st').
Proof.
  split; [| split; [| split]].
  - intros Hne. rewrite CheckOrigin_spec. split.
    + intros [? | ?]; congruence.
    + auto.
  - intros He. apply CheckOrigin_spec. auto.
  - intros Hne Hdiff.
    assert (Hc : CheckOrigin (srv st) r = false).
    { destruct (CheckOrigin (srv st) r) eqn:E; [| reflexivity].
      apply CheckOrigin_spec in E as [? | ?]; congruence. }
    unfold HandleWS, mbind, M_bind, Upgrade. rewrite Hc.
    destruct (handshake r); reflexivity.
  - intros Hc Hh Hu. unfold unlocked in *.
    unfold HandleWS, mbind, M_bind, Upgrade. rewrite Hc, Hh. cbn.
    unfold Add, mbind, M_bind, Lock. cbn. unfold the_mu in *. cbn. rewrite Hu. cbn.
    eexists. split; [reflexivity |]. split; reflexivity.
Qed.

Lemma origin_enforcement_witness :
  let st := scenario.fresh_state (NewServer [Origin scenario.app_origin]) in
  let open := scenario.fresh_state (NewServer []) in
  let good := scenario.request_from scenario.app_origin in
  let bad := scenario.request_from "https://evil.example" in
  (CheckOrigin (srv st) good = true <->
   Header_Get (Header good) "Origin" = origin (srv st)) /\
  CheckOrigin (srv open) bad = true /\
  HandleWS bad st = Val (tt, st) /\
  (exists st',
     HandleWS good st = Val (tt, st') /\
     the_registry st' = {[next_conn st]} ∪ the_registry st /\
     unlocked st').
Proof.
  intros st open good bad.
  split; [| split; [| split]].
  - refine (proj1 (origin_enforcement st good) _). vm_compute. congruence.
  - exact (proj1 (proj2 (origin_enforcement open bad)) eq_refl).
  - refine (proj1 (proj2 (proj2 (origin_enforcement st bad))) _ _);
      vm_compute; congruence.
  - exact (proj2 (proj2 (proj2 (origin_enforcement st good))) eq_refl eq_refl eq_refl).
Defined.

(** ** The registry and the mutex *)

Section RegistryFacts.

Variable order : gset positive -> list positive.

Ltac step_m :=
  unfold unlocked in *;
  unfold mbind, M_bind, mret, M_ret, modify, get,
         Lock, Unlock, RLock, RUnlock, the_mu, the_registry in *;
  cbn in *.

Lemma closes_set_net (st : State) (ws ws' : positive) (t : Transport) :
  closes (set_net <[ws := t]> st) ws' =
    if decide (ws = ws') then t_closes t else closes st ws'.
Proof.
  unfold closes, transport. cbn. rewrite lookup_insert.
  destruct (decide (ws = ws')); reflexivity.
Qed.

Lemma ws_Close_spec (ws : positive) (st : State) :
  exists err st',
    ws_Close ws st = Val (err, st') /\
    srv st' = srv st /\ tickers st' = tickers st /\ spawned st' = spawned st /\
    forall ws', closes st' ws' =
                  if decide (ws = ws') then S (closes st ws') else closes st ws'.
Proof.
  unfold ws_Close. eexists. eexists. split; [reflexivity |].
  repeat split. intros ws'. rewrite closes_set_net.
  destruct (decide (ws = ws')) as [-> |]; reflexivity.
Qed.

Lemma Add_spec (ws : positive) (st : State) :
  unlocked st ->
  exists st',
    Add ws st = Val (tt, st') /\ unlocked st' /\
    the_registry st' = {[ws]} ∪ the_registry st /\ net st' = net st.
Proof.
  intros Hu. unfold Add. step_m. rewrite Hu. cbn.
  eexists. split; [reflexivity |]. auto.
Qed.

Lemma Delete_spec (ws : positive) (st : State) :
  unlocked st ->
  exists err st',
    Delete ws st = Val (err, st') /\ unlocked st' /\
    the_registry st' = the_registry st ∖ {[ws]} /\
    tickers st' = tickers st /\
    forall ws', closes st' ws' =
                  if decide (ws = ws') then S (closes st ws') else closes st ws'.
Proof.
  intros Hu. unfold Delete, ws_Close. step_m. rewrite Hu. cbn.
  eexists. eexists. split; [reflexivity |]. cbn.
  repeat split. intros ws'.
  match goal with |- closes ?s _ = _ =>
    change (closes s ws') with (t_closes (default new_transport (net s !! ws'))) end.
  cbn. rewrite lookup_insert.
  destruct (decide (ws = ws')) as [-> |]; reflexivity.
Qed.

Lemma IsEmpty_spec (st : State) :
  unlocked st ->
  exists st',
    IsEmpty st = Val (bool_decide (the_registry st = ∅), st') /\ unlocked st' /\
    the_registry st' = the_registry st /\ net st' = net st.
Proof.
  intros Hu. unfold IsEmpty. step_m. rewrite Hu. cbn.
  eexists. split.
  - do 2 f_equal.
    destruct (Nat.eqb_spec (size (registry (connections (srv st)))) 0) as [E | E];
      symmetry.
    + apply bool_decide_eq_true. apply size_empty_iff in E.
      apply leibniz_equiv. exact E.
    + apply bool_decide_eq_false. intros Hz. rewrite Hz in E.
      apply E. apply size_empty.
  - cbn. auto.
Qed.

(** A visitor that only answers. *)
Lemma Iter_range_pure (p : positive -> bool) (l : list positive) (st : State) :
  Iter_range (fun ws => mret (p ws)) l st = Val (forallb p l, st).
Proof.
  induction l as [| ws l IH]; [reflexivity |].
  cbn. unfold mbind, M_bind, mret, M_ret in *. cbn.
  destruct (p ws); cbn; [exact IH | reflexivity].
Qed.

(** When the visitor stops the iteration, [Iter] returns with the read
    lock still held. *)
Lemma Iter_stop_holds_lock (p : positive -> bool) (st : State) :
  writer (the_mu st) = false ->
  forallb p (order (the_registry st)) = false ->
  Iter order (fun ws => mret (p ws)) st =
    Val (tt, set_mu (mkRWMutex false (S (readers (the_mu st)))) st).
Proof.
  intros Hw Hstop. unfold Iter.
  unfold mbind at 1, M_bind at 1, RLock. rewrite Hw.
  unfold mbind at 1, M_bind at 1, get.
  unfold mbind at 1, M_bind at 1.
  rewrite Iter_range_pure.
  replace (the_registry (set_mu (mkRWMutex false (S (readers (the_mu st)))) st))
    with (the_registry st) by reflexivity.
  rewrite Hstop. reflexivity.
Qed.

Lemma Iter_completes_releases (p : positive -> bool) (st : State) :
  unlocked st ->
  forallb p (order (the_registry st)) = true ->
  exists st', Iter order (fun ws => mret (p ws)) st = Val (tt, st') /\
              unlocked st' /\ the_registry st' = the_registry st.
Proof.
  intros Hu Hall. unfold Iter.
  unfold mbind at 1, M_bind at 1, RLock. rewrite Hu. cbn [writer readers].
  unfold mbind at 1, M_bind at 1, get.
  unfold mbind at 1, M_bind at 1.
  rewrite Iter_range_pure.
  replace (the_registry (set_mu (mkRWMutex false 1) st))
    with (the_registry st) by reflexivity.
  rewrite Hall. unfold RUnlock. cbn. eexists. split; [reflexivity |].
  split; reflexivity.
Qed.

Lemma held_lock_blocks (ws : positive) (st : State) :
  readers (the_mu st) <> 0 -> Add ws st = Block /\ Delete ws st = Block.
Proof.
  intros Hr. unfold Add, Delete. step_m.
  destruct (readers (mu (connections (srv st)))); [congruence |].
  rewrite orb_true_r. auto.
Qed.

(** Closing every connection of a list. *)
Lemma Iter_range_close (l : list positive) (st : State) :
  NoDup l ->
  exists st',
    Iter_range (fun ws => _ ← ws_Close ws; mret true) l st = Val (true, st') /\
    srv st' = srv st /\ tickers st' = tickers st /\
    forall ws', closes st' ws' =
                  if decide (ws' ∈ l) then S (closes st ws') else closes st ws'.
Proof.
  revert st. induction l as [| ws l IH]; intros st Hnd.
  - exists st. do 3 (split; [reflexivity |]). intros ws'.
    destruct (decide (ws' ∈ [])) as [Hin |]; [| reflexivity].
    apply elem_of_nil in Hin. destruct Hin.
  - apply NoDup_cons in Hnd as [Hni Hnd].
    destruct (ws_Close_spec ws st) as (err & st1 & E1 & Hs1 & Ht1 & _ & Hc1).
    destruct (IH st1 Hnd) as (st' & E & Hs & Ht & Hc).
    exists st'. split; [| split; [congruence | split; [congruence |]]].
    + cbn [Iter_range]. unfold mbind at 1, M_bind at 1.
      unfold mbind at 1, M_bind at 1. rewrite E1.
      unfold mret at 1, M_ret at 1. cbn [negb]. exact E.
    + intros ws'. rewrite Hc, Hc1.
      destruct (decide (ws = ws')) as [<- | Hne].
      * destruct (decide (ws ∈ l)); [contradiction |].
        destruct (decide (ws ∈ ws :: l)) as [| Hn]; [reflexivity |].
        destruct Hn. apply elem_of_cons. auto.
      * destruct (decide (ws' ∈ l)) as [Hin | Hnin];
          destruct (decide (ws' ∈ ws :: l)) as [Hin' | Hnin']; try reflexivity.
        -- destruct Hnin'. apply elem_of_cons. auto.
        -- apply elem_of_cons in Hin' as [-> | ?]; [congruence | contradiction].
Qed.

Hypothesis order_perm : forall m : gset positive, order m ≡ₚ elements m.

Lemma shutdown_spec (st : State) :
  unlocked st ->
  exists st',
    shutdown order st = Val (tt, st') /\ unlocked st' /\
    the_registry st' = the_registry st /\ tickers st' = tickers st /\
    forall ws', closes st' ws' =
                  if decide (ws' ∈ the_registry st) then S (closes st ws')
                  else closes st ws'.
Proof.
  intros Hu. unfold shutdown, Close, Iter.
  unfold mbind at 1, M_bind at 1, RLock. rewrite Hu. cbn [writer readers].
  unfold mbind at 1, M_bind at 1, get.
  set (st1 := set_mu (mkRWMutex false 1) st).
  assert (Hnd : NoDup (order (the_registry st1))).
  { rewrite order_perm. apply NoDup_elements. }
  destruct (Iter_range_close (order (the_registry st1)) st1 Hnd)
    as (st' & E & Hs & Ht & Hc).
  unfold mbind at 1, M_bind at 1. rewrite E.
  unfold RUnlock, the_mu. rewrite Hs. cbn.
  eexists. split; [reflexivity |].
  unfold unlocked, the_mu, the_registry. cbn. rewrite Hs. cbn.
  split; [reflexivity |]. split; [reflexivity |]. split; [exact Ht |].
  intros ws'.
  change (closes _ ws') with (closes st' ws') at 1.
  rewrite Hc. change (closes st1 ws') with (closes st ws').
  change (the_registry st1) with (the_registry st).
  change (registry (connections (srv st))) with (the_registry st).
  destruct (decide (ws' ∈ order (the_registry st))) as [Hin | Hnin];
    destruct (decide (ws' ∈ the_registry st)) as [Hin' | Hnin']; try reflexivity.
  - destruct Hnin'. rewrite order_perm in Hin. apply elem_of_elements in Hin. exact Hin.
  - destruct Hnin. rewrite order_perm. apply elem_of_elements. exact Hin'.
Qed.

End RegistryFacts.

(** ** The paths that close a connection *)

Lemma transport_set_net (st : State) (ws : positive) (t : Transport) :
  transport (set_net <[ws := t]> st) ws = t.
Proof. unfold transport. cbn. rewrite lookup_insert_eq. reflexivity. Qed.

(** A write goroutine never touches the registry. *)
Lemma write_task_keeps_registry (ws : positive) (tx : list byte) (st : State) :
  exists st', write_task ws tx st = Val (tt, st') /\
              srv st' = srv st /\ tickers st' = tickers st.
Proof.
  unfold write_task, ws_WriteMessage, ws_Close, mbind, M_bind, mret, M_ret.
  destruct (send_error (transport st ws)); eexists; (split; [reflexivity |]); auto.
Qed.

Lemma write_task_failed (ws : positive) (tx : list byte) (st : State) :
  send_error (transport st ws) <> None ->
  exists st',
    write_task ws tx st = Val (tt, st') /\
    srv st' = srv st /\ tickers st' = tickers st /\
    forall ws', closes st' ws' =
                  if decide (ws = ws') then S (closes st ws') else closes st ws'.
Proof.
  intros Herr.
  unfold write_task, ws_WriteMessage, ws_Close, mbind, M_bind, mret, M_ret.
  destruct (send_error (transport st ws)) as [e |]; [| congruence].
  eexists. split; [reflexivity |]. split; [reflexivity |]. split; [reflexivity |].
  intros ws'. rewrite closes_set_net, transport_set_net. cbn.
  destruct (decide (ws = ws')) as [<- |]; [reflexivity |].
  rewrite closes_set_net. destruct (decide (ws = ws')); [contradiction | reflexivity].
Qed.

Lemma keepalive_tick_failed (ws : positive) (st : State) :
  ws ∈ tickers st ->
  send_error (transport st ws) <> None ->
  exists st',
    keepalive_tick ws st = Val (tt, st') /\
    srv st' = srv st /\ tickers st' = tickers st /\
    forall ws', closes st' ws' =
                  if decide (ws = ws') then S (closes st ws') else closes st ws'.
Proof.
  intros Hin Herr.
  unfold keepalive_tick, ws_WriteControl, ws_Close, mbind, M_bind, mret, M_ret, get.
  rewrite bool_decide_eq_true_2 by exact Hin.
  destruct (send_error (transport st ws)) as [e |]; [| congruence].
  eexists. split; [reflexivity |]. split; [reflexivity |]. split; [reflexivity |].
  intros ws'. rewrite closes_set_net, transport_set_net. cbn.
  destruct (decide (ws = ws')) as [<- |]; [reflexivity |].
  rewrite closes_set_net. destruct (decide (ws = ws')); [contradiction | reflexivity].
Qed.

Lemma closeHandler_spec (ws : positive) (st : State) :
  unlocked st ->
  exists err st',
    closeHandler ws st = Val (err, st') /\ unlocked st' /\
    the_registry st' = the_registry st ∖ {[ws]} /\
    tickers st' = tickers st ∖ {[ws]} /\
    forall ws', closes st' ws' =
                  if decide (ws = ws') then S (closes st ws') else closes st ws'.
Proof.
  intros Hu. unfold closeHandler.
  unfold mbind at 1, M_bind at 1, modify.
  destruct (Delete_spec ws (set_tickers (fun t => t ∖ {[ws]}) st) Hu)
    as (err & st' & E & Hu' & Hr & Ht & Hc).
  exists err, st'. rewrite E. auto.
Qed.

(** C6 as amended. Each path closes the transport of the connection it
    reaches once more each time it runs, whatever was closed before: the
    close handler, after it removed the connection from the registry under
    the exclusive lock; a failed write; a failed probe; and the shutdown,
    for every registered connection.  Nothing keeps the closes of one
    transport to a single one. *)
Theorem every_path_closes_once_more
    (order : gset positive -> list positive) (st : State)
    (ws : positive) (tx : list byte) :
  (forall m : gset positive, order m ≡ₚ elements m) ->
  unlocked st ->
  (exists err st',
     closeHandler ws st = Val (err, st') /\
     the_registry st' = the_registry st ∖ {[ws]} /\
     forall ws', closes st' ws' =
                   if decide (ws = ws') then S (closes st ws') else closes st ws') /\
  (send_error (transport st ws) <> None ->
   exists st',
     write_task ws tx st = Val (tt, st') /\
     forall ws', closes st' ws' =
                   if decide (ws = ws') then S (closes st ws') else closes st ws') /\
  (ws ∈ tickers st -> send_error (transport st ws) <> None ->
   exists st',
     keepalive_tick ws st = Val (tt, st') /\
     forall ws', closes st' ws' =
                   if decide (ws = ws') then S (closes st ws') else closes st ws') /\
  (exists st',
     shutdown order st = Val (tt, st') /\
     forall ws', closes st' ws' =
                   if decide (ws' ∈ the_registry st) then S (closes st ws')
                   else closes st ws').
Proof.
  intros Hperm Hu. split; [| split; [| split]].
  - destruct (closeHandler_spec ws st Hu) as (err & st' & E & _ & Hr & _ & Hc).
    eauto.
  - intros Herr.
    destruct (write_task_failed ws tx st Herr) as (st' & E & _ & _ & Hc).
    eauto.
  - intros Hin Herr.
    destruct (keepalive_tick_failed ws st Hin Herr) as (st' & E & _ & _ & Hc).
    eauto.
  - destruct (shutdown_spec order Hperm st Hu) as (st' & E & _ & _ & _ & Hc).
    eauto.
Qed.

Lemma every_path_closes_once_more_witness :
  let st := scenario.one_broken in
  (exists err st',
     closeHandler 1 st = Val (err, st') /\
     the_registry st' = the_registry st ∖ {[1%positive]} /\
     forall ws', closes st' ws' =
                   if decide (1%positive = ws') then S (closes st ws') else closes st ws') /\
  (exists st',
     write_task 1 scenario.line_a st = Val (tt, st') /\
     forall ws', closes st' ws' =
                   if decide (1%positive = ws') then S (closes st ws') else closes st ws') /\
  (exists st',
     keepalive_tick 1 st = Val (tt, st') /\
     forall ws', closes st' ws' =
                   if decide (1%positive = ws') then S (closes st ws') else closes st ws') /\
  (exists st',
     shutdown elements st = Val (tt, st') /\
     forall ws', closes st' ws' =
                   if decide (ws' ∈ the_registry st) then S (closes st ws')
                   else closes st ws').
Proof.
  intros st.
  assert (Hu : unlocked st) by (vm_compute; reflexivity).
  assert (Herr : send_error (transport st 1) <> None) by (vm_compute; congruence).
  assert (Hin : 1%positive ∈ tickers st) by (vm_compute; reflexivity).
  pose proof (every_path_closes_once_more elements st 1 scenario.line_a
                (fun m => reflexivity (elements m)) Hu) as (H1 & H2 & H3 & H4).
  split; [exact H1 |]. split; [exact (H2 Herr) |].
  split; [exact (H3 Hin Herr) | exact H4].
Defined.

Lemma no_close_yet (st : State) :
  map_Forall (fun _ t => t_closes t = 0) (net st) -> closed_at_most_once st.
Proof.
  intros H ws. unfold transport.
  destruct (net st !! ws) as [t |] eqn:E; cbn.
  - rewrite (H ws t E). lia.
  - lia.
Qed.

(** C6, as stated, fails, on paths the server takes by itself.
    Connections 1 and 2 are registered and sound; a line is broadcast and
    a write goroutine is started for each; before they run the context is
    done and the shutdown of [Start] closes every registered connection;
    the write to 1 then fails and closes its transport a second time.
    Without any shutdown: the peer of 1 is gone, the write of a first line
    to 1 fails and closes its transport, 1 stays registered, and the write
    of the next line fails and closes it again. *)
Lemma transport_closed_twice :
  closed_at_most_once scenario.two_subscribers /\
  (exists st',
     (_ ← broadcast elements scenario.line_a;
      _ ← shutdown elements;
      run_spawned) scenario.two_subscribers = Val (tt, st') /\
     closes st' 1 = 2 /\
     ~ closed_at_most_once st') /\
  closed_at_most_once scenario.one_broken /\
  (exists st',
     (_ ← scenario.dispatch scenario.line_a;
      scenario.dispatch scenario.line_b) scenario.one_broken = Val (tt, st') /\
     closes st' 1 = 2 /\
     ~ closed_at_most_once st').
Proof.
  split; [| split; [| split]].
  - apply no_close_yet. apply (bool_decide_unpack _). vm_compute. exact I.
  - eexists. split; [vm_compute; reflexivity |].
    split; [reflexivity |].
    intros H. specialize (H 1%positive). vm_compute in H. lia.
  - apply no_close_yet. apply (bool_decide_unpack _). vm_compute. exact I.
  - eexists. split; [vm_compute; reflexivity |].
    split; [reflexivity |].
    intros H. specialize (H 1%positive). vm_compute in H. lia.
Qed.

(** C2 on the failing input. Connections 1 and 2 are registered and the
    peer of 1 is gone.  The write of a first line to 1 fails: its
    transport is closed, but 1 is still registered.  The next line is
    therefore written to 1 again, and its transport closed again; so is it
    when the probe of 1 fails, whose goroutine goes on.  Connection 2 gets
    both lines and nothing stops the server. *)
Theorem broken_connection_stays_registered :
  let st0 := scenario.one_broken in
  let st1 := scenario.then_ (scenario.dispatch scenario.line_a) st0 in
  let st2 := scenario.then_ (scenario.dispatch scenario.line_b) st1 in
  let st3 := scenario.then_ (keepalive_tick 1) st2 in
  the_registry st0 = {[1%positive; 2%positive]} /\
  scenario.dispatch scenario.line_a st0 = Val (tt, st1) /\
  closes st1 1 = 1 /\
  the_registry st1 = the_registry st0 /\
  t_frames (transport st1 2) = [scenario.line_a] /\
  scenario.dispatch scenario.line_b st1 = Val (tt, st2) /\
  t_writes (transport st2 1) = 2 /\
  closes st2 1 = 2 /\
  the_registry st2 = the_registry st0 /\
  t_frames (transport st2 1) = [] /\
  t_frames (transport st2 2) = [scenario.line_a; scenario.line_b] /\
  keepalive_tick 1 st2 = Val (tt, st3) /\
  t_pings (transport st3 1) = 1 /\
  closes st3 1 = 3 /\
  the_registry st3 = the_registry st0 /\
  tickers st3 = tickers st0.
Proof. vm_compute. repeat split; reflexivity. Qed.

(** C3 on the failing input. With connections 1 and 2 registered and the
    mutex free, [Iter] with a visitor that stops at once returns with the
    read lock still held: a following [Add] or [Delete] blocks. *)
Theorem Iter_stop_keeps_read_lock :
  let stop := fun _ : positive => mret false : M bool in
  let st := scenario.two_subscribers in
  let st' := scenario.then_ (Iter elements stop) st in
  unlocked st /\
  Iter elements stop st = Val (tt, st') /\
  the_mu st' = mkRWMutex false 1 /\
  Add 3 st' = Block /\
  Delete 1 st' = Block.
Proof. vm_compute. repeat split; reflexivity. Qed.

(** The other registry calls, and an iteration that is not stopped, leave
    the mutex free. *)
Lemma registry_calls_release
    (order : gset positive -> list positive) (st : State) (ws : positive) :
  unlocked st ->
  (exists st', Add ws st = Val (tt, st') /\ unlocked st') /\
  (exists err st', Delete ws st = Val (err, st') /\ unlocked st') /\
  (exists b st', IsEmpty st = Val (b, st') /\ unlocked st') /\
  (exists st', Iter order (fun _ => mret true) st = Val (tt, st') /\ unlocked st').
Proof.
  intros Hu. split; [| split; [| split]].
  - destruct (Add_spec ws st Hu) as (st' & E & Hu' & _). eauto.
  - destruct (Delete_spec ws st Hu) as (err & st' & E & Hu' & _). eauto.
  - destruct (IsEmpty_spec st Hu) as (st' & E & Hu' & _). eauto.
  - destruct (Iter_completes_releases order (fun _ => true) st Hu) as (st' & E & Hu' & _).
    + apply forallb_forall. auto.
    + eauto.
Qed.

(** * Further properties of the reader *)

Import laws.

Section ReaderLaws.

Local Open Scope Z_scope.

Lemma openFile_opens (w : World) (r : reader) (name : string) (f : File) :
  openFile w r name = inl f ->
  f_closed f = false /\
  names w !! name = Some (Linked (f_ino f)) /\
  f_pos f = (if 0 <? offset r then offset r
             else if seekEnd r then file_size w (f_ino f) else 0).
Proof.
  unfold openFile, os_Open.
  destruct (names w !! name) as [[ino | c] |]; try discriminate.
  destruct (Z.ltb_spec 0 (offset r)) as [Hpos | Hnp].
  - unfold File_Seek. cbn.
    destruct (Z.ltb_spec (offset r) 0); [lia |]. intros [= <-]. auto.
  - destruct (seekEnd r); [| intros [= <-]; auto].
    unfold File_Seek, file_size. cbn.
    destruct (Z.ltb_spec (Z.of_nat (length (contents w ino)) + 0) 0); [lia |].
    rewrite Z.add_0_r. intros [= <-]. auto.
Qed.

(** X1. [openFile] fails exactly when the name cannot be opened, with the
    error of [os.Open]; its seeks never fail.  The handle it returns is
    open and stands at the offset of the reader when that is positive, and
    otherwise at the end of the file when [SeekEnd] was given, and
    otherwise at 0: a positive offset takes precedence over [SeekEnd], and
    an offset that is not positive is not sought. *)
Theorem openFile_position (w : World) (r : reader) (name : string) :
  match names w !! name with
  | Some (Linked ino) =>
      openFile w r name =
        inl (mkFile ino (if 0 <? offset r then offset r
                         else if seekEnd r then file_size w ino else 0) false)
  | Some (Unreadable c) => openFile w r name = inr (ErrOS c)
  | None => openFile w r name = inr ErrNotExist
  end.
Proof.
  unfold openFile, os_Open.
  destruct (names w !! name) as [[ino | c] |]; try reflexivity.
  destruct (Z.ltb_spec 0 (offset r)) as [Hpos | Hnp].
  - unfold File_Seek. cbn.
    destruct (Z.ltb_spec (offset r) 0); [lia | reflexivity].
  - destruct (seekEnd r); [| reflexivity].
    unfold File_Seek, file_size. cbn.
    destruct (Z.ltb_spec (Z.of_nat (length (contents w ino)) + 0) 0); [lia |].
    rewrite Z.add_0_r. reflexivity.
Qed.

Lemma StartOffset_not_SeekEnd (o : Z) : StartOffset o <> SeekEnd.
Proof.
  intros H.
  apply (f_equal (fun f => seekEnd (f (mkReader 0 false None make_chan)))) in H.
  discriminate.
Qed.

Lemma fold_options_seekEnd (options : list watch.Option) (r0 : reader) :
  Forall package_option options ->
  seekEnd (fold_left (fun r apply => apply r) options r0) = true <->
  seekEnd r0 = true \/ SeekEnd ∈ options.
Proof.
  revert r0. induction options as [| o options IH]; intros r0 HF; cbn.
  - split; [auto |]. intros [? | Hin]; [assumption |].
    apply elem_of_nil in Hin. destruct Hin.
  - inversion HF as [| ? ? Ho HF']; subst. rewrite (IH _ HF').
    rewrite elem_of_cons. inversion Ho as [z Hz |]; subst; cbn.
    + split; [intros [? | ?]; auto |].
      intros [? | [Heq | ?]]; auto.
      symmetry in Heq. destruct (StartOffset_not_SeekEnd z Heq).
    + split; auto.
Qed.

(** X2. The options of the reader compose in order: the last [StartOffset]
    gives the offset, [SeekEnd] leaves the offset as it is and holds
    wherever it stands in the list.  A new reader has no file and an open
    channel with nothing sent. *)
Theorem NewReader_options (options : list watch.Option) (o : Z) :
  Forall package_option options ->
  GetOffset (NewReader (options ++ [StartOffset o])) = o /\
  GetOffset (NewReader (options ++ [SeekEnd])) = GetOffset (NewReader options) /\
  (seekEnd (NewReader options) = true <-> SeekEnd ∈ options) /\
  file (NewReader options) = None /\
  read (NewReader options) = make_chan.
Proof.
  intros HF. unfold NewReader, GetOffset. rewrite !fold_left_app. cbn.
  split; [reflexivity |]. split; [reflexivity |]. split.
  - rewrite (fold_options_seekEnd options _ HF). cbn.
    split; [intros [? | ?]; [discriminate | assumption] | auto].
  - destruct (NewReader_fields options HF) as (_ & Hf & Hc). auto.
Qed.

Lemma NewReader_options_witness :
  GetOffset (NewReader ([SeekEnd; StartOffset 7] ++ [StartOffset 3])) = 3 /\
  GetOffset (NewReader ([SeekEnd; StartOffset 7] ++ [SeekEnd])) =
    GetOffset (NewReader [SeekEnd; StartOffset 7]) /\
  (seekEnd (NewReader [SeekEnd; StartOffset 7]) = true <->
   SeekEnd ∈ [SeekEnd; StartOffset 7]) /\
  file (NewReader [SeekEnd; StartOffset 7]) = None /\
  read (NewReader [SeekEnd; StartOffset 7]) = make_chan.
Proof.
  apply (NewReader_options [SeekEnd; StartOffset 7] 3).
  constructor; [constructor |].
  constructor; [| constructor].
  constructor. unfold in_int64, min_int64, max_int64. lia.
Defined.

(** X3. Only a write event can change the reader or wake [Read]: an event
    with the Remove or the Rename bit, or without the Write bit, leaves
    the reader as it is and sends nothing, whatever else it carries; and
    an event with none of the three bits (a create, a chmod) is ignored. *)
Theorem handleEvent_only_writes (w : World) (r : reader) (e : Event) :
  (Has e Remove = true \/ Has e Rename = true \/ Has e Write = false ->
   (handleEvent w r e).2 = r /\ (handleEvent w r e).1 <> Panics) /\
  (Has e Remove = false -> Has e Rename = false -> Has e Write = false ->
   handleEvent w r e = (Return None, r)).
Proof.
  split.
  - intros H. unfold handleEvent.
    destruct (Has e Remove).
    { destruct (os_Stat w (Name e)) as [size | err]; [cbn; split; congruence |].
      destruct (IsNotExist err); cbn; split; congruence. }
    destruct (Has e Rename); [cbn; split; congruence |].
    destruct (Has e Write); [| cbn; split; congruence].
    destruct H as [? | [? | ?]]; discriminate.
  - apply handleEvent_other.
Qed.

Lemma handleEvent_only_writes_witness :
  let w := scenario.log_with scenario.line_a in
  let r := scenario.reader_at 5 5 in
  ((handleEvent w r (mkEvent scenario.tx_log (Z.lor Write Remove))).2 = r /\
   (handleEvent w r (mkEvent scenario.tx_log (Z.lor Write Remove))).1 <> Panics) /\
  handleEvent w r (mkEvent scenario.tx_log (Z.lor Create Chmod)) = (Return None, r).
Proof.
  intros w r. split.
  - exact (proj1 (handleEvent_only_writes w r
                    (mkEvent scenario.tx_log (Z.lor Write Remove)))
                 (or_introl eq_refl)).
  - exact (proj2 (handleEvent_only_writes w r
                    (mkEvent scenario.tx_log (Z.lor Create Chmod)))
                 eq_refl eq_refl eq_refl).
Defined.

(** X4. [Watch] never panics on its way to the select.  When it gets
    there the file is open, and the offset, the [SeekEnd] flag and the
    channel are as before.  When it returns before, the reader holds no
    open file: none at all when [openFile] failed, whose error is
    returned, and a closed one when the watcher could not be set up. *)
Theorem Watch_begin_outcomes (w : World) (r : reader) (name : string) :
  match Watch_begin w r name with
  | (Return None, r') =>
      file_open r' /\
      new_watcher_err w = None /\ watcher_add_err w = None /\
      offset r' = offset r /\ seekEnd r' = seekEnd r /\ read r' = read r
  | (Return (Some err), r') =>
      offset r' = offset r /\ read r' = read r /\
      ((file r' = None /\ openFile w r name = inr err) \/
       (exists f, file r' = Some f /\ f_closed f = true /\
                  (new_watcher_err w = Some err \/
                   new_watcher_err w = None /\ watcher_add_err w = Some err)))
  | (Panics, _) => False
  end.
Proof.
  unfold Watch_begin.
  destruct (openFile w r name) as [f | err] eqn:E.
  - assert (Hc : f_closed f = false) by apply (openFile_opens w r name f E).
    destruct (new_watcher_err w) as [err |] eqn:E1.
    { cbn. repeat split. right. unfold File_Close. rewrite Hc. cbn. eauto 10. }
    destruct (watcher_add_err w) as [err |] eqn:E2.
    { cbn. repeat split. right. unfold File_Close. rewrite Hc. cbn. eauto 10. }
    cbn. repeat split. exists f. auto.
  - cbn. repeat split. left. auto.
Qed.

Lemma Watch_begin_channel (w : World) (r : reader) (name : string) :
  match Watch_begin w r name with
  | (Return _, r') => read r' = read r
  | (Panics, _) => False
  end.
Proof.
  unfold Watch_begin.
  destruct (openFile w r name) as [f | err]; [| reflexivity].
  destruct (new_watcher_err w); [reflexivity |].
  destruct (watcher_add_err w); reflexivity.
Qed.

End ReaderLaws.

(** * Further properties of the runs of Server.Watch *)

Section SyncSteps.

Local Open Scope Z_scope.

Variable name : string.

Lemma handleEvent_channel (w : World) (r : reader) (e : Event) :
  ch_closed (read r) = false -> file_open r ->
  match handleEvent w r e with
  | (Return None, r') =>
      read r' = read r \/
      read r' = mkChan false (S (ch_sent (read r))) (ch_recvd (read r))
  | (Return (Some _), r') => r' = r
  | (Panics, _) => False
  end.
Proof.
  intros Hc (f & Hf & Hfc).
  unfold handleEvent, chan_send, File_Seek.
  repeat case_match; simplify_eq/=; auto; congruence.
Qed.

Lemma Watch_select_channel (w : World) (r : reader) (x : selected) :
  ch_closed (read r) = false -> file_open r ->
  match Watch_select name w r x with
  | (None, r') =>
      read r' = read r \/
      read r' = mkChan false (S (ch_sent (read r))) (ch_recvd (read r))
  | (Some (Return _), r') => read r' = read r
  | (Some Panics, _) => False
  end.
Proof.
  intros Hc Hop. unfold Watch_select.
  destruct x as [e | [err |] |]; cbn; auto.
  destruct (negb (String.eqb (Name e) name)); cbn; auto.
  pose proof (handleEvent_channel w r e Hc Hop) as H.
  destruct (handleEvent w r e) as [[[err |] |] r']; cbn; auto. congruence.
Qed.

Lemma Watch_returned_Sync (err : option error) (s : Sys) :
  ch_closed (read (rd s)) = false ->
  ch_sent (read (rd s)) = ch_recvd (read (rd s)) ->
  Sync (Watch_returned err s).
Proof.
  intros Hc He.
  destruct (decide (err = Some ErrFileOverwritten)) as [-> | Hne].
  - rewrite Watch_returned_overwritten. split; cbn; auto; discriminate.
  - rewrite Watch_returned_other by assumption. split; cbn; auto; discriminate.
Qed.

Ltac sync_goals :=
  split; cbn; intros;
  first [ discriminate | congruence | exfalso; congruence | lia | eauto; fail ].

Lemma step_Sync (a : Action) (s s' : Sys) :
  Inv s -> Sync s -> step name a s = Some s' -> Sync s'.
Proof.
  intros HI HS. pose proof HS as [Hsend Hrest Hsound Hexit].
  destruct a as [op | | x | blen |]; cbn.
  - intros [= <-]. sync_goals.
  - unfold watch_call. destruct (wpc s) eqn:Hpc; try discriminate.
    assert (Hcl : ch_closed (read (rd s)) = false)
      by (apply not_closed_unless_exit; [assumption | congruence]).
    assert (Heq : ch_sent (read (rd s)) = ch_recvd (read (rd s)))
      by (apply Hrest; discriminate).
    pose proof (Watch_begin_channel (world s) (rd s) name) as Hrd.
    destruct (Watch_begin (world s) (rd s) name) as [[[err |] |] r'];
      [| | destruct Hrd]; intros [= <-].
    + apply Watch_returned_Sync; cbn; congruence.
    +      sync_goals.
  - unfold watch_select. destruct (wpc s) eqn:Hpc; try discriminate.
    assert (Hcl : ch_closed (read (rd s)) = false)
      by (apply not_closed_unless_exit; [assumption | congruence]).
    assert (Heq : ch_sent (read (rd s)) = ch_recvd (read (rd s)))
      by (apply Hrest; discriminate).
    assert (Hop : file_open (rd s)) by (apply (inv_open s HI); auto).
    pose proof (Watch_select_channel (world s) (rd s) x Hcl Hop) as Hx.
    destruct (Watch_select name (world s) (rd s) x) as [[[err |] |] r'];
      [| destruct Hx |]; intros [= <-].
    + apply Watch_returned_Sync; cbn; rewrite close_file_read; congruence.
    + destruct Hx as [Hrd | Hrd].
      * assert (Hp : pending (read r') = false).
        { rewrite Hrd. unfold pending. rewrite Heq, Nat.eqb_refl. reflexivity. }
        rewrite Hp. split; cbn; intros; try discriminate; congruence.
      * assert (Hp : pending (read r') = true).
        { rewrite Hrd. unfold pending. cbn [ch_sent ch_recvd]. rewrite Heq.
          apply negb_true_iff, Nat.eqb_neq. lia. }
        rewrite Hp. split; cbn; intros; try discriminate; try congruence.
        rewrite Hrd. cbn. congruence.
  - unfold read_call. destruct (rpc s) as [| | | data [err |] |]; try discriminate;
      intros [= <-]; sync_goals.
  - unfold read_resume. destruct (rpc s) as [| blen | blen | |]; try discriminate.
    + unfold recv. destruct (pending (read (rd s))) eqn:Hp.
      * intros [= <-].
        assert (Hw : wpc s = WSend).
        { destruct (wpc s) eqn:Hw; try reflexivity; exfalso;
            unfold pending in Hp; rewrite Hrest in Hp by discriminate;
            rewrite Nat.eqb_refl in Hp; discriminate. }
        rewrite Hw. pose proof (Hsend Hw). sync_goals.
      * destruct (ch_closed (read (rd s))) eqn:Hcl; [| discriminate].
        intros [= <-]. sync_goals.
    + pose proof (Read_attempt_read (world s) (rd s) blen) as Hrd.
      destruct (Read_attempt (world s) (rd s) blen) as [[data err | |] r'];
        cbn in Hrd; intros [= <-]; split; cbn; rewrite ?Hrd; eauto.
Qed.

Lemma start_Sync (options : list watch.Option) (w : World) :
  Forall package_option options -> Sync (start options w).
Proof.
  intros HF. destruct (NewReader_fields options HF) as (_ & _ & Hc).
  split; cbn; rewrite ?Hc; try discriminate; reflexivity.
Qed.

Lemma reachable (options : list watch.Option) (w : World)
    (sched : list Action) (s : Sys) :
  world_ok w -> Forall package_option options ->
  run name sched (start options w) = Some s ->
  Inv s /\ Sync s.
Proof.
  intros Hw HF.
  pose proof (start_Inv options w Hw HF) as HI.
  pose proof (start_Sync options w HF) as HS.
  revert HI HS. generalize (start options w).
  induction sched as [| a sched IH]; intros s0 HI HS; cbn.
  - intros [= <-]. auto.
  - destruct (step name a s0) as [s1 |] eqn:E; [| discriminate].
    apply IH; [exact (step_Inv name a s0 s1 HI E) | exact (step_Sync a s0 s1 HI HS E)].
Qed.


End SyncSteps.

Section ServerWatchLaws.

Local Open Scope Z_scope.

Variables (name : string) (options : list watch.Option) (w : World).
Hypothesis w_ok : world_ok w.
Hypothesis options_ok : Forall package_option options.

Variables (sched : list Action) (s : Sys).
Hypothesis s_reached : run name sched (start options w) = Some s.

(** X5. In no run does the watch goroutine panic: it never sends on the
    closed channel, never closes the channel twice, and never uses a nil
    file in [handleEvent]. *)
Theorem watch_goroutine_never_panics (s' : Sys) :
  run name sched (start options w) = Some s' -> wpc s' <> WPanic.
Proof.
  intros Hrun.
  destruct (reachable name options w sched s' w_ok options_ok Hrun) as [_ HS].
  apply (sync_sound s' HS).
Qed.

(** X6. At most one signal is in flight, and one is exactly when the watch
    goroutine stands in the send of [handleEvent]: every signal sent
    before was received by [Read]. *)
Theorem one_signal_in_flight (s' : Sys) :
  run name sched (start options w) = Some s' ->
  ch_sent (read (rd s')) =
    match wpc s' with
    | WSend => S (ch_recvd (read (rd s')))
    | _ => ch_recvd (read (rd s'))
    end.
Proof.
  intros Hrun.
  destruct (reachable name options w sched s' w_ok options_ok Hrun) as [_ HS].
  pose proof (sync_send s' HS) as Hsend. pose proof (sync_rest s' HS) as Hrest.
  destruct (wpc s'); auto; apply Hrest; discriminate.
Qed.

(** X7. The reader is closed exactly when the goroutine of [Server.Watch]
    has returned: [Close] runs once, on its return, and not before. *)
Theorem closed_exactly_at_exit (s' : Sys) :
  run name sched (start options w) = Some s' ->
  (ch_closed (read (rd s')) = true <-> exists err, wpc s' = WExit err).
Proof.
  intros Hrun.
  destruct (reachable name options w sched s' w_ok options_ok Hrun) as [HI HS].
  split.
  - apply (inv_closed s' HI).
  - intros [err H]. apply (sync_exit s' HS err H).
Qed.

(** X8. Once the goroutine of [Server.Watch] has returned, with or without
    an error, a [Read] that waits for a signal returns [0, io.EOF] at its
    next step: the scanner is not left blocked. *)
Theorem exit_unblocks_Read (err : option error) (blen : nat) :
  wpc s = WExit err -> rpc s = RRecv blen ->
  step name AResume s =
    Some (mkSys (world s) (rd s) (wpc s) (RRet [] (Some EOF)) (stream s) (seen_size s)).
Proof.
  intros Hw Hr.
  destruct (reachable name options w sched s w_ok options_ok s_reached) as [_ HS].
  cbn. unfold read_resume, recv. rewrite Hr.
  assert (Hp : pending (read (rd s)) = false).
  { unfold pending. rewrite (sync_rest s HS) by congruence.
    rewrite Nat.eqb_refl. reflexivity. }
  rewrite Hp, (sync_exit s HS err Hw). reflexivity.
Qed.

(** X9. When the context is done while [Watch] is in its select, [Watch]
    returns nil, the loop of [Server.Watch] ends without an error, the
    file is closed and the reader is closed; offset and stream are left
    as they are. *)
Theorem cancel_ends_cleanly :
  wpc s = WSelect ->
  exists s',
    step name (ASelect OnDone) s = Some s' /\
    wpc s' = WExit None /\
    ch_closed (read (rd s')) = true /\
    (exists f, file (rd s') = Some f /\ f_closed f = true) /\
    offset (rd s') = offset (rd s) /\ stream s' = stream s /\ rpc s' = rpc s.
Proof.
  intros Hw.
  destruct (reachable name options w sched s w_ok options_ok s_reached) as [HI HS].
  assert (Hcl : ch_closed (read (rd s)) = false)
    by (apply not_closed_unless_exit; [assumption | congruence]).
  destruct (inv_open s HI (or_introl Hw)) as (f & Hf & Hfc).
  cbn. unfold watch_select. rewrite Hw. cbn.
  rewrite Watch_returned_other;
    [| discriminate | cbn; rewrite close_file_read; exact Hcl].
  eexists. split; [reflexivity |]. cbn.
  unfold close_file. rewrite Hf. cbn. unfold File_Close. rewrite Hfc. cbn.
  repeat split. eauto.
Qed.

(** X10. Events of other files of the directory and nil errors of the
    watcher change nothing: [Watch] stays in its select, no file is
    touched and nothing is signalled. *)
Theorem foreign_events_ignored (e : Event) :
  wpc s = WSelect ->
  (Name e <> name -> step name (ASelect (OnEvent e)) s = Some s) /\
  step name (ASelect (OnError None)) s = Some s.
Proof.
  intros Hw.
  destruct (reachable name options w sched s w_ok options_ok s_reached) as [HI HS].
  assert (Hp : pending (read (rd s)) = false).
  { unfold pending. rewrite (sync_rest s HS) by congruence.
    rewrite Nat.eqb_refl. reflexivity. }
  split.
  - intros Hne. apply String.eqb_neq in Hne.
    cbn. unfold watch_select, Watch_select, observe. rewrite Hw, Hne. cbn.
    rewrite Hp. destruct s; cbn in *; subst; reflexivity.
  - cbn. unfold watch_select. rewrite Hw. cbn.
    rewrite Hp. destruct s; cbn in *; subst; reflexivity.
Qed.

(** X11. A write event for a name that [os.Stat] cannot stat - the file is
    gone again, or unreadable - ends [Watch] with the error of the stat:
    it is not [ErrFileOverwritten], so [Server.Watch] returns it and
    closes the reader; nothing is signalled. *)
Theorem write_event_without_file (e : Event) (err : error) :
  wpc s = WSelect -> plain_write name e ->
  os_Stat (world s) name = inr err ->
  exists s',
    step name (ASelect (OnEvent e)) s = Some s' /\
    wpc s' = WExit (Some err) /\
    ch_closed (read (rd s')) = true /\
    ch_sent (read (rd s')) = ch_sent (read (rd s)) /\
    offset (rd s') = offset (rd s).
Proof.
  intros Hw (Hn & Hrm & Hrn & Hwr) Hst.
  destruct (reachable name options w sched s w_ok options_ok s_reached) as [HI HS].
  assert (Hcl : ch_closed (read (rd s)) = false)
    by (apply not_closed_unless_exit; [assumption | congruence]).
  assert (Hh : handleEvent (world s) (rd s) e = (Return (Some err), rd s)).
  { unfold handleEvent. rewrite Hrm, Hrn, Hwr, Hn, Hst. reflexivity. }
  assert (Hne : Some err <> Some ErrFileOverwritten).
  { unfold os_Stat in Hst. intros [= ->].
    destruct (names (world s) !! name) as [[ino | c] |]; discriminate. }
  rewrite (select_error_returns name e err s Hw Hn Hh).
  rewrite Watch_returned_other;
    [| exact Hne | cbn; rewrite close_file_read; exact Hcl].
  eexists. split; [reflexivity |]. cbn. rewrite close_file_read.
  repeat split. unfold close_file. destruct (file (rd s)); reflexivity.
Qed.

End ServerWatchLaws.

Lemma watch_goroutine_never_panics_witness :
  wpc (scenario.after scenario.racing_append (Watch_start (scenario.log_with [])))
    <> WPanic.
Proof.
  apply (watch_goroutine_never_panics scenario.tx_log [SeekEnd] (scenario.log_with [])
           (log_with_ok [] eq_refl) SeekEnd_only scenario.racing_append).
  vm_compute. reflexivity.
Defined.

Lemma one_signal_in_flight_witness :
  let s := scenario.after
             [AWatch; AEnv (EAppend scenario.tx_log scenario.line_a);
              ASelect (OnEvent scenario.write_ev)]
             (Watch_start (scenario.log_with [])) in
  ch_sent (read (rd s)) =
    match wpc s with
    | WSend => S (ch_recvd (read (rd s)))
    | _ => ch_recvd (read (rd s))
    end.
Proof.
  intros s.
  apply (one_signal_in_flight scenario.tx_log [SeekEnd] (scenario.log_with [])
           (log_with_ok [] eq_refl) SeekEnd_only
           [AWatch; AEnv (EAppend scenario.tx_log scenario.line_a);
            ASelect (OnEvent scenario.write_ev)]).
  vm_compute. reflexivity.
Defined.

Lemma closed_exactly_at_exit_witness :
  let s := scenario.after scenario.cancel_while_waiting
                          (Watch_start (scenario.log_with [])) in
  ch_closed (read (rd s)) = true <-> exists err, wpc s = WExit err.
Proof.
  intros s.
  apply (closed_exactly_at_exit scenario.tx_log [SeekEnd] (scenario.log_with [])
           (log_with_ok [] eq_refl) SeekEnd_only scenario.cancel_while_waiting).
  vm_compute. reflexivity.
Defined.

Lemma exit_unblocks_Read_witness :
  let s := scenario.after [AWatch; ACall scenario.buf; ASelect OnDone]
                          (Watch_start (scenario.log_with [])) in
  step scenario.tx_log AResume s =
    Some (mkSys (world s) (rd s) (wpc s) (RRet [] (Some EOF)) (stream s) (seen_size s)).
Proof.
  intros s.
  apply (exit_unblocks_Read scenario.tx_log [SeekEnd] (scenario.log_with [])
           (log_with_ok [] eq_refl) SeekEnd_only
           [AWatch; ACall scenario.buf; ASelect OnDone] s
           ltac:(vm_compute; reflexivity) None scenario.buf);
    vm_compute; reflexivity.
Defined.

Lemma cancel_ends_cleanly_witness :
  let s := scenario.after [AWatch] (Watch_start (scenario.log_with scenario.line_a)) in
  exists s',
    step scenario.tx_log (ASelect OnDone) s = Some s' /\
    wpc s' = WExit None /\
    ch_closed (read (rd s')) = true /\
    (exists f, file (rd s') = Some f /\ f_closed f = true) /\
    offset (rd s') = offset (rd s) /\ stream s' = stream s /\ rpc s' = rpc s.
Proof.
  intros s.
  apply (cancel_ends_cleanly scenario.tx_log [SeekEnd] (scenario.log_with scenario.line_a)
           (log_with_ok scenario.line_a eq_refl) SeekEnd_only [AWatch] s
           ltac:(vm_compute; reflexivity)).
  vm_compute. reflexivity.
Defined.

Lemma foreign_events_ignored_witness :
  let s := scenario.after [AWatch] (Watch_start (scenario.log_with scenario.line_a)) in
  step scenario.tx_log (ASelect (OnEvent (mkEvent "/var/log/other" Write))) s = Some s /\
  step scenario.tx_log (ASelect (OnError None)) s = Some s.
Proof.
  intros s.
  destruct (foreign_events_ignored scenario.tx_log [SeekEnd]
              (scenario.log_with scenario.line_a)
              (log_with_ok scenario.line_a eq_refl) SeekEnd_only [AWatch] s
              ltac:(vm_compute; reflexivity)
              (mkEvent "/var/log/other" Write) ltac:(vm_compute; reflexivity))
    as [H1 H2].
  split; [apply H1; vm_compute; congruence | exact H2].
Defined.

Lemma write_event_without_file_witness :
  let s := scenario.after [AWatch; AEnv (ERemove scenario.tx_log)]
                          (Watch_start (scenario.log_with scenario.line_a)) in
  exists s',
    step scenario.tx_log (ASelect (OnEvent scenario.write_ev)) s = Some s' /\
    wpc s' = WExit (Some ErrNotExist) /\
    ch_closed (read (rd s')) = true /\
    ch_sent (read (rd s')) = ch_sent (read (rd s)) /\
    offset (rd s') = offset (rd s).
Proof.
  intros s.
  apply (write_event_without_file scenario.tx_log [SeekEnd]
           (scenario.log_with scenario.line_a)
           (log_with_ok scenario.line_a eq_refl) SeekEnd_only
           [AWatch; AEnv (ERemove scenario.tx_log)] s
           ltac:(vm_compute; reflexivity) scenario.write_ev ErrNotExist).
  - vm_compute. reflexivity.
  - repeat split.
  - vm_compute. reflexivity.
Defined.

(** * Further properties: what reaches the scanner *)

Section Delivery.

Local Open Scope Z_scope.

Variable name : string.


Lemma run_cons (a : Action) (sched : list Action) (s : Sys) :
  run name (a :: sched) s =
    match step name a s with
    | Some s' => run name sched s'
    | None => None
    end.
Proof. reflexivity. Qed.


Lemma File_Read_at (w : World) (f : File) (blen : nat) (pre data : list byte) :
  f_closed f = false -> contents w (f_ino f) = pre ++ data ->
  f_pos f = Z.of_nat (length pre) -> data <> [] -> blen <> 0%nat ->
  File_Read w f blen =
    (take blen data, None,
     mkFile (f_ino f) (f_pos f + Z.of_nat (length (take blen data))) false).
Proof.
  intros Hc Hcont Hpos Hne Hb. unfold File_Read. rewrite Hc.
  destruct (Nat.eqb_spec blen 0) as [| _]; [contradiction |].
  rewrite Hcont, Hpos, Nat2Z.id, drop_app_length.
  destruct blen as [| n]; [contradiction |].
  destruct data as [| b data]; [contradiction |]. reflexivity.
Qed.


End Delivery.

Section DeliveryRuns.

Local Open Scope Z_scope.

Variables (name : string) (e : Event) (blen : nat).
Hypothesis e_write : plain_write name e.


Variables (options : list watch.Option) (w : World).
Hypothesis w_ok : world_ok w.
Hypothesis options_ok : Forall package_option options.

Variables (sched : list Action) (s : Sys).
Hypothesis s_reached : run name sched (start options w) = Some s.
Hypothesis s_caught_up : caught_up name s.


End DeliveryRuns.


Section Redelivery.

Local Open Scope Z_scope.

Variables (name : string) (options : list watch.Option) (w : World).
Hypothesis w_ok : world_ok w.
Hypothesis options_ok : Forall package_option options.

Variables (sched : list Action) (s : Sys).
Hypothesis s_reached : run name sched (start options w) = Some s.

(** X13. A write event that finds the file no larger than the offset is
    taken for a truncation also when nothing was truncated: when the
    handle has read the whole file from its start (offset equal to the
    size, not 0), one more write event without new data resets it, and the
    next read gives the scanner the file again from its first byte. *)
Theorem repeated_event_reads_again (e : Event) (blen : nat) :
  caught_up name s -> plain_write name e -> blen <> 0%nat ->
  0 < watched_size name (world s) <= offset (rd s) ->
  exists s',
    run name (redeliver e blen) s = Some s' /\
    world s' = world s /\
    stream s' = stream s ++ take blen (watched_contents name (world s)) /\
    offset (rd s') =
      Z.of_nat (length (take blen (watched_contents name (world s)))).
Proof.
  intros (Hw & Hr & f & Hf & Hfc & Hlink & Hpos) (Hn & Hrm & Hrn & Hwr) Hb Hsz.
  destruct (reachable name options w sched s w_ok options_ok s_reached) as [HI HS].
  assert (Hcl : ch_closed (read (rd s)) = false)
    by (apply not_closed_unless_exit; [assumption | congruence]).
  assert (Heq : ch_sent (read (rd s)) = ch_recvd (read (rd s)))
    by (apply (sync_rest s HS); congruence).
  pose proof (contents_fit (world s) (f_ino f) (inv_world s HI)) as Hfit.
  apply fits_spec in Hfit.
  unfold watched_size, watched_contents in *. rewrite Hlink in *.
  destruct s as [w0 r pcw pcr st seen].
  cbn [world rd wpc rpc stream seen_size] in *. subst pcw.
  set (ino := f_ino f) in *.
  set (data := contents w0 ino) in *.
  assert (Hne : data <> []).
  { intros E. unfold file_size in Hsz. fold data in Hsz. rewrite E in Hsz. cbn in Hsz. lia. }
  set (f0 := mkFile ino 0 false).
  set (r0 := set_offset 0 (set_file (Some f0) r)).
  set (r3 := set_read (mkChan false (S (ch_sent (read r))) (ch_recvd (read r))) r0).
  set (r4 := set_read (mkChan false (S (ch_sent (read r))) (S (ch_recvd (read r)))) r0).
  set (got := take blen data).
  set (f5 := mkFile ino (0 + Z.of_nat (length got)) false).
  set (r5 := set_offset (Z.of_nat (length got)) (set_file (Some f5) r4)).
  set (seen3 := Some (file_size w0 ino)).
  assert (Hp3 : pending (read r3) = true).
  { unfold pending, r3, set_read. cbn [read ch_sent ch_recvd]. rewrite Heq.
    apply negb_true_iff, Nat.eqb_neq. lia. }
  assert (S1 : step name (ACall blen) (mkSys w0 r WSelect pcr st seen) =
               Some (mkSys w0 r WSelect (RRecv blen) st seen)).
  { cbn. unfold read_call. cbn. destruct Hr as [-> | [d ->]]; reflexivity. }
  assert (Hstat : os_Stat w0 (Name e) = inl (file_size w0 ino)).
  { rewrite Hn. unfold os_Stat. rewrite Hlink. reflexivity. }
  assert (S3 : step name (ASelect (OnEvent e))
                 (mkSys w0 r WSelect (RRecv blen) st seen) =
               Some (mkSys w0 r3 WSend (RRecv blen) st seen3)).
  { cbn [step]. unfold watch_select. cbn [world rd wpc rpc stream seen_size].
    unfold Watch_select, observe, stat_seen.
    cbn [world rd wpc rpc stream seen_size].
    rewrite Hrm, Hrn, Hwr, Hstat, Hn, String.eqb_refl. cbn [negb andb].
    rewrite (handleEvent_truncated w0 r e (file_size w0 ino) f) by (auto; lia).
    cbv zeta. fold ino. fold f0. fold r0.
    destruct (Z.eqb_spec (file_size w0 ino) 0) as [Hz | _]; [lia |].
    rewrite chan_send_open by exact Hcl.
    change (read r0) with (read r). fold r3.
    rewrite Hp3. reflexivity. }
  assert (S4 : step name AResume (mkSys w0 r3 WSend (RRecv blen) st seen3) =
               Some (mkSys w0 r4 WSelect (RFile blen) st seen3)).
  { cbn [step]. unfold read_resume, recv. cbn [world rd wpc rpc stream seen_size].
    rewrite Hp3. reflexivity. }
  assert (Hgot : 0 < Z.of_nat (length got)).
  { unfold got. destruct blen; [contradiction |].
    destruct data; [contradiction | cbn; lia]. }
  assert (Hgot_le : Z.of_nat (length got) <= max_int64).
  { unfold got. rewrite length_take. lia. }
  assert (S5 : step name AResume (mkSys w0 r4 WSelect (RFile blen) st seen3) =
               Some (mkSys w0 r5 WSelect (RRet got None) (st ++ got) seen3)).
  { cbn [step]. unfold read_resume. cbn [world rd wpc rpc stream seen_size].
    unfold Read_attempt. replace (file r4) with (Some f0) by reflexivity.
    rewrite (File_Read_at w0 f0 blen [] data); auto.
    fold got. cbn [f_ino f_pos f0]. fold f5. unfold Read_result. cbn.
    destruct (Z.ltb_spec 0 (Z.of_nat (length got))) as [_ | Hz]; [| lia].
    rewrite wrap64_id; [reflexivity |].
    unfold in_int64, min_int64, max_int64 in *. lia. }
  exists (mkSys w0 r5 WSelect (RRet got None) (st ++ got) seen3).
  split.
  { unfold redeliver.
    rewrite run_cons, S1; cbv beta iota. rewrite run_cons, S3; cbv beta iota.
    rewrite run_cons, S4; cbv beta iota. rewrite run_cons, S5. reflexivity. }
  cbn. auto.
Qed.

(** X14. [Server.Watch] starts at the end of the file and gives the
    scanner nothing of what the file held before: as long as no process
    changes the directory, whatever events the watcher delivers, however
    often [Watch] returns and is called again, the stream of the scanner
    stays empty and the offset stays 0. *)
Theorem nothing_read_while_unchanged (quiet : list Action) (s' : Sys) :
  Forall no_env quiet ->
  run name quiet (Watch_start w) = Some s' ->
  stream s' = [] /\ offset (rd s') = 0 /\ world s' = w.
Proof.
  intros HF Hrun.
  assert (H0 : still name w (Watch_start w)).
  { unfold still. cbn. repeat split; discriminate. }
  assert (Hstep : forall a s1 s2,
             no_env a -> still name w s1 -> step name a s1 = Some s2 ->
             still name w s2).
  { clear. intros a s1 s2 Ha (Hst & Hwd & Hoff & Hse & Hfile).
    destruct s1 as [w0 r pcw pcr st seen].
    cbn [world rd wpc rpc stream seen_size] in *. subst w0 st.
    assert (Hret : forall err r' pc' seen',
               offset r' = 0 -> seekEnd r' = true ->
               (forall f, file r' = Some f ->
                  names w !! name = Some (Linked (f_ino f)) /\
                  f_pos f = file_size w (f_ino f)) ->
               still name w (Watch_returned err (mkSys w r' pc' pcr [] seen'))).
    { intros err r' pc' seen' H1 H2 H3. unfold Watch_returned, watch.Close.
      repeat case_match; simplify_eq/=; unfold still; cbn; auto. }
    assert (Hcf : forall r',
               (forall f, file r' = Some f ->
                  names w !! name = Some (Linked (f_ino f)) /\
                  f_pos f = file_size w (f_ino f)) ->
               forall f, file (close_file r').2 = Some f ->
                  names w !! name = Some (Linked (f_ino f)) /\
                  f_pos f = file_size w (f_ino f)).
    { intros r' H f. unfold close_file, File_Close.
      destruct (file r') as [f' |] eqn:E; cbn; [| rewrite E; discriminate].
      intros [= <-]. destruct (f_closed f'); cbn; apply H; reflexivity. }
    destruct a as [op | | x | bl |]; [destruct Ha | | | |]; cbn [step].
    - unfold watch_call. cbn [world rd wpc rpc stream seen_size].
      destruct pcw; try discriminate.
      assert (Hopen : forall f, openFile w r name = inl f ->
                names w !! name = Some (Linked (f_ino f)) /\
                f_pos f = file_size w (f_ino f)).
      { intros f E. destruct (openFile_opens w r name f E) as (_ & Hn & Hp).
        split; [exact Hn |]. rewrite Hp, Hoff, Hse. reflexivity. }
      unfold Watch_begin.
      destruct (openFile w r name) as [f | err] eqn:E.
      + specialize (Hopen f eq_refl).
        assert (Hf1 : forall f', file (set_file (Some f) r) = Some f' ->
                  names w !! name = Some (Linked (f_ino f')) /\
                  f_pos f' = file_size w (f_ino f'))
          by (cbn; intros f' [= <-]; exact Hopen).
        destruct (new_watcher_err w);
          [intros [= <-]; apply Hret;
           [exact Hoff | exact Hse | exact (Hcf _ Hf1)] | ].
        destruct (watcher_add_err w);
          [intros [= <-]; apply Hret;
           [exact Hoff | exact Hse | exact (Hcf _ Hf1)] | ].
        intros [= <-]. unfold still. cbn. auto.
      + intros [= <-]. apply Hret; cbn; auto. discriminate.
    - unfold watch_select. cbn [world rd wpc rpc stream seen_size].
      destruct pcw; try discriminate.
      assert (Hx : offset (Watch_select name w r x).2 = 0 /\
                   seekEnd (Watch_select name w r x).2 = true /\
                   forall f, file (Watch_select name w r x).2 = Some f ->
                     names w !! name = Some (Linked (f_ino f)) /\
                     f_pos f = file_size w (f_ino f)).
      { unfold Watch_select. destruct x as [e | [err |] |]; cbn; auto.
        destruct (String.eqb_spec (Name e) name) as [Hn | Hn]; cbn; auto.
        assert (Hh : offset (handleEvent w r e).2 = 0 /\
                     seekEnd (handleEvent w r e).2 = true /\
                     forall f, file (handleEvent w r e).2 = Some f ->
                       names w !! name = Some (Linked (f_ino f)) /\
                       f_pos f = file_size w (f_ino f)).
        { unfold handleEvent, chan_send, File_Seek, os_Stat. rewrite Hn.
          destruct (file r) as [f |] eqn:Ef.
          - destruct (Hfile f eq_refl) as [Hl Hp]. rewrite Hl.
            repeat case_match; simplify_eq/=;
              (split; [first [assumption | reflexivity] | split; [assumption |]]);
              intros f' Hf'; rewrite ?Ef in Hf'; simplify_eq/=;
              (split; [first [assumption | reflexivity] |]);
              try assumption; unfold file_size in *; lia.
          - repeat case_match; simplify_eq/=;
              (split; [first [assumption | reflexivity] | split; [assumption |]]);
              intros f' Hf'; rewrite ?Ef in Hf'; simplify_eq/=. }
        destruct (handleEvent w r e) as [[[err |] |] r']; exact Hh. }
      destruct (Watch_select name w r x) as [[[err |] |] r'];
        cbn in Hx; destruct Hx as (Hx1 & Hx2 & Hx3); intros [= <-].
      + apply Hret;
          [ unfold close_file; destruct (file r'); cbn; assumption
          | unfold close_file; destruct (file r'); cbn; assumption
          | exact (Hcf _ Hx3) ].
      + unfold still. cbn. auto.
      + unfold still. cbn. auto.
    - unfold read_call. cbn [world rd wpc rpc stream seen_size].
      destruct pcr as [| | | d [err |] |]; try discriminate;
        intros [= <-]; unfold still; cbn; auto.
    - unfold read_resume. cbn [world rd wpc rpc stream seen_size].
      destruct pcr as [| bl | bl | |]; try discriminate.
      + unfold recv. destruct (pending (read r)).
        * intros [= <-]. unfold still. cbn. auto.
        * destruct (ch_closed (read r)); [| discriminate].
          intros [= <-]. unfold still. cbn. auto.
      + unfold Read_attempt.
        destruct (file r) as [f |] eqn:Ef;
          [| intros [= <-]; unfold still; cbn; rewrite Ef; auto].
        destruct (Hfile f eq_refl) as [Hl Hp].
        assert (Hread : File_Read w f bl = ([], Some ErrClosed, f) \/
                        File_Read w f bl = ([], None, f) \/
                        File_Read w f bl = ([], Some EOF, f)).
        { unfold File_Read. destruct (f_closed f); [auto |].
          destruct (Nat.eqb bl 0); [auto |].
          rewrite Hp. unfold file_size. rewrite Nat2Z.id, drop_all, take_nil. auto. }
        destruct Hread as [-> | [-> | ->]]; cbn; intros [= <-];
          unfold still; cbn;
          do 4 (split; [first [reflexivity | assumption] |]);
          intros f' [= <-]; auto. }
  revert Hrun H0. generalize (Watch_start w).
  induction quiet as [| a quiet IH]; intros s0 Hrun H0; cbn in Hrun.
  - injection Hrun as <-. destruct H0 as (? & ? & ? & _). auto.
  - inversion HF as [| ? ? Ha HF']; subst.
    destruct (step name a s0) as [s1 |] eqn:E; [| discriminate].
    apply (IH HF' s1 Hrun). exact (Hstep a s0 s1 Ha H0 E).
Qed.

End Redelivery.

Lemma repeated_event_reads_again_witness :
  let s := laws.read_to_end in
  exists s',
    run scenario.tx_log (redeliver scenario.write_ev scenario.buf) s = Some s' /\
    world s' = world s /\
    stream s' =
      stream s ++ take scenario.buf (watched_contents scenario.tx_log (world s)) /\
    offset (rd s') =
      Z.of_nat (length (take scenario.buf (watched_contents scenario.tx_log (world s)))).
Proof.
  intros s.
  apply (repeated_event_reads_again scenario.tx_log [SeekEnd] (scenario.log_with [])
           (log_with_ok [] eq_refl) SeekEnd_only
           (AWatch :: scenario.append_and_read scenario.line_a) s
           ltac:(vm_compute; reflexivity) scenario.write_ev scenario.buf).
  - split; [reflexivity |]. split; [right; exists scenario.line_a; reflexivity |].
    exists (mkFile 0 2 false). repeat split.
  - repeat split.
  - discriminate.
  - vm_compute. split; congruence.
Defined.

Lemma nothing_read_while_unchanged_witness :
  let quiet := [AWatch; ACall scenario.buf; ASelect (OnEvent scenario.write_ev);
                AResume; AResume] in
  let s' := scenario.after quiet (Watch_start (scenario.log_with scenario.line_a)) in
  stream s' = [] /\ offset (rd s') = 0%Z /\ world s' = scenario.log_with scenario.line_a.
Proof.
  intros quiet s'.
  apply (nothing_read_while_unchanged scenario.tx_log (scenario.log_with scenario.line_a)
           quiet s').
  - repeat constructor.
  - vm_compute. reflexivity.
Defined.

(** * Further properties of the registry and of the server *)

Section ServerLaws.

Variable order : gset positive -> list positive.

Lemma state_eta (st : State) :
  unlocked st -> set_mu (mkRWMutex false 0) st = st.
Proof.
  unfold unlocked, the_mu, set_mu, set_connections.
  destruct st as [[a o c k [m reg]] n t sp nx]. cbn. intros ->. reflexivity.
Qed.

(** X15. [Add] and [Delete] keep the registry a set.  After [Add] the
    connection is registered, and adding it again changes nothing.  After
    [Delete] it is not, and [Delete] closes the transport whether or not
    the connection was registered.  Adding a connection that was not
    registered and deleting it gives the registry back.  Each call leaves
    the mutex free. *)
Theorem registry_membership (st : State) (ws : positive) :
  unlocked st ->
  (exists st1 st2,
     Add ws st = Val (tt, st1) /\ unlocked st1 /\
     ws ∈ the_registry st1 /\ the_registry st1 = {[ws]} ∪ the_registry st /\
     Add ws st1 = Val (tt, st2) /\ the_registry st2 = the_registry st1) /\
  (exists err st1,
     Delete ws st = Val (err, st1) /\ unlocked st1 /\
     (ws ∉ the_registry st1) /\ the_registry st1 = the_registry st ∖ {[ws]} /\
     closes st1 ws = S (closes st ws)) /\
  (ws ∉ the_registry st ->
   exists err st2,
     (_ ← Add ws; Delete ws) st = Val (err, st2) /\ unlocked st2 /\
     the_registry st2 = the_registry st).
Proof.
  intros Hu.
  destruct (Add_spec ws st Hu) as (st1 & E1 & Hu1 & Hr1 & _).
  destruct (Add_spec ws st1 Hu1) as (st2 & E2 & _ & Hr2 & _).
  destruct (Delete_spec ws st Hu) as (err & st3 & E3 & Hu3 & Hr3 & _ & Hc3).
  destruct (Delete_spec ws st1 Hu1) as (err' & st4 & E4 & Hu4 & Hr4 & _).
  split; [| split].
  - exists st1, st2. repeat split; auto.
    + rewrite Hr1. apply elem_of_union_l, elem_of_singleton. reflexivity.
    + rewrite Hr2, Hr1, (assoc_L (∪)), union_idemp_L. reflexivity.
  - exists err, st3. repeat split; auto.
    + rewrite Hr3. intros [_ Hn]%elem_of_difference.
      apply Hn, elem_of_singleton. reflexivity.
    + rewrite Hc3. destruct (decide (ws = ws)); [reflexivity | contradiction].
  - intros Hnin. exists err', st4.
    unfold mbind at 1, M_bind at 1. rewrite E1. repeat split; auto.
    rewrite Hr4, Hr1. apply set_eq. intros x.
    rewrite elem_of_difference, elem_of_union, elem_of_singleton.
    split; [intros [[-> | ?] ?]; [contradiction | assumption] |].
    intros Hx. split; [auto | intros ->; contradiction].
Qed.

Lemma registry_membership_witness :
  let st := scenario.two_subscribers in
  (exists st1 st2,
     Add 5 st = Val (tt, st1) /\ unlocked st1 /\
     5%positive ∈ the_registry st1 /\
     the_registry st1 = {[5%positive]} ∪ the_registry st /\
     Add 5 st1 = Val (tt, st2) /\ the_registry st2 = the_registry st1) /\
  (exists err st1,
     Delete 5 st = Val (err, st1) /\ unlocked st1 /\
     (5%positive ∉ the_registry st1) /\
     the_registry st1 = the_registry st ∖ {[5%positive]} /\
     closes st1 5 = S (closes st 5)) /\
  (exists err st2,
     (_ ← Add 5; Delete 5) st = Val (err, st2) /\ unlocked st2 /\
     the_registry st2 = the_registry st).
Proof.
  intros st.
  destruct (registry_membership st 5 ltac:(vm_compute; reflexivity)) as (H1 & H2 & H3).
  split; [exact H1 |]. split; [exact H2 |].
  apply H3. vm_compute. congruence.
Defined.

(** X16. [IsEmpty] only reads: with the mutex free it answers whether the
    registry is empty and leaves the whole state as it was. *)
Theorem IsEmpty_only_reads (st : State) :
  unlocked st ->
  IsEmpty st = Val (bool_decide (the_registry st = ∅), st).
Proof.
  intros Hu.
  destruct (IsEmpty_spec st Hu) as (st' & E & _). rewrite E. do 2 f_equal.
  revert E. unfold IsEmpty, mbind, M_bind, mret, M_ret, get, RLock, RUnlock.
  unfold unlocked in Hu. rewrite Hu. cbn. intros [= _ <-].
  pose proof (state_eta st Hu) as Heta. revert Heta.
  unfold set_mu, set_connections. cbn. auto.
Qed.

Lemma IsEmpty_only_reads_witness :
  IsEmpty scenario.two_subscribers =
    Val (bool_decide (the_registry scenario.two_subscribers = ∅),
         scenario.two_subscribers).
Proof.
  apply (IsEmpty_only_reads scenario.two_subscribers). vm_compute. reflexivity.
Defined.

End ServerLaws.

Section DispatchLaws.

Variable order : gset positive -> list positive.

Lemma Iter_range_spawn (tx : list byte) (l : list positive) (st : State) :
  Iter_range (fun ws => _ ← modify (set_spawned (fun q => q ++ [(ws, tx)])); mret true)
             l st =
    Val (true, set_spawned (fun q => q ++ map (fun ws => (ws, tx)) l) st).
Proof.
  revert st. induction l as [| ws l IH]; intros st.
  - cbn. unfold mret, M_ret, set_spawned. rewrite app_nil_r.
    destruct st; reflexivity.
  - cbn [Iter_range]. unfold mbind at 1, M_bind at 1.
    unfold mbind at 1, M_bind at 1, modify. unfold mret at 1, M_ret at 1. cbn [negb].
    rewrite IH. unfold set_spawned. cbn. rewrite <- app_assoc. reflexivity.
Qed.

Lemma broadcast_spawns (tx : list byte) (st : State) :
  unlocked st ->
  broadcast order tx st =
    Val (tt, set_spawned
               (fun q => q ++ map (fun ws => (ws, tx)) (order (the_registry st))) st).
Proof.
  intros Hu. unfold broadcast, Iter.
  unfold mbind at 1, M_bind at 1, RLock. rewrite Hu. cbn [writer readers].
  unfold mbind at 1, M_bind at 1, get.
  unfold mbind at 1, M_bind at 1.
  rewrite Iter_range_spawn.
  revert Hu. unfold unlocked, the_mu, the_registry.
  destruct st as [[a o c k [m reg]] n t sp nx]. cbn. intros ->. reflexivity.
Qed.

(** X17. [broadcast] writes nothing itself: with the mutex free it returns
    with the mutex free again, having started one write goroutine for each
    registered connection, in the order of the iteration and each with
    the line; the registry, the transports and the keep-alive goroutines
    are as before. *)
Theorem broadcast_starts_one_write_each (tx : list byte) (st : State) :
  unlocked st ->
  exists st',
    broadcast order tx st = Val (tt, st') /\
    spawned st' = spawned st ++ map (fun ws => (ws, tx)) (order (the_registry st)) /\
    srv st' = srv st /\ net st' = net st /\ tickers st' = tickers st.
Proof.
  intros Hu. eexists. split; [apply broadcast_spawns; exact Hu |].
  cbn. auto.
Qed.

Lemma write_task_transport (ws : positive) (tx : list byte) (st : State) :
  exists st',
    write_task ws tx st = Val (tt, st') /\
    srv st' = srv st /\ tickers st' = tickers st /\ spawned st' = spawned st /\
    next_conn st' = next_conn st /\
    forall ws', transport st' ws' =
                  if decide (ws = ws') then written tx (transport st ws)
                  else transport st ws'.
Proof.
  unfold write_task, ws_WriteMessage, ws_Close, mbind, M_bind, mret, M_ret, written.
  destruct (send_error (transport st ws)) as [e |] eqn:E.
  all: eexists; split; [reflexivity |].
  all: do 4 (split; [reflexivity |]).
  all: intros ws'; unfold transport; cbn.
  all: destruct (decide (ws = ws')) as [<- | Hne].
  all: rewrite ?lookup_insert_eq, ?lookup_insert_ne by congruence.
  all: rewrite ?lookup_insert_eq, ?lookup_insert_ne by congruence.
  all: reflexivity.
Qed.

Lemma run_tasks_each (tx : list byte) (l : list positive) (st : State) :
  NoDup l ->
  exists st',
    run_tasks (map (fun ws => (ws, tx)) l) st = Val (tt, st') /\
    srv st' = srv st /\ tickers st' = tickers st /\ spawned st' = spawned st /\
    next_conn st' = next_conn st /\
    forall ws', transport st' ws' =
                  if decide (ws' ∈ l) then written tx (transport st ws')
                  else transport st ws'.
Proof.
  revert st. induction l as [| ws l IH]; intros st Hnd.
  - exists st. cbn [map run_tasks]. do 5 (split; [reflexivity |]). intros ws'.
    destruct (decide (ws' ∈ [])) as [Hin |]; [| reflexivity].
    apply elem_of_nil in Hin. destruct Hin.
  - apply NoDup_cons in Hnd as [Hni Hnd].
    destruct (write_task_transport ws tx st) as (st1 & E1 & Hs1 & Ht1 & Hp1 & Hn1 & Hc1).
    destruct (IH st1 Hnd) as (st' & E & Hs & Ht & Hp & Hn & Hc).
    exists st'. split; [| repeat split; try congruence].
    + cbn [map run_tasks]. unfold mbind at 1, M_bind at 1. rewrite E1. exact E.
    + intros ws'. rewrite Hc, !Hc1.
      destruct (decide (ws = ws')) as [<- | Hne].
      * destruct (decide (ws ∈ l)); [contradiction |].
        rewrite decide_True by (apply elem_of_cons; auto). reflexivity.
      * destruct (decide (ws' ∈ l)) as [Hin | Hnin].
        -- rewrite decide_True by (apply elem_of_cons; auto). reflexivity.
        -- rewrite decide_False; [reflexivity |].
           intros [-> | ?]%elem_of_cons; [congruence | contradiction].
Qed.

Hypothesis order_perm : forall m : gset positive, order m ≡ₚ elements m.

Lemma dispatch_written (tx : list byte) (st : State) :
  unlocked st -> spawned st = [] ->
  exists st',
    (_ ← broadcast order tx; run_spawned) st = Val (tt, st') /\
    unlocked st' /\ spawned st' = [] /\
    the_registry st' = the_registry st /\ tickers st' = tickers st /\
    forall ws, transport st' ws =
                 if decide (ws ∈ the_registry st) then written tx (transport st ws)
                 else transport st ws.
Proof.
  intros Hu Hsp.
  unfold mbind at 1, M_bind at 1.
  rewrite (broadcast_spawns tx st Hu).
  unfold run_spawned. unfold mbind at 1, M_bind at 1, get.
  unfold mbind at 1, M_bind at 1, modify.
  cbn [spawned set_spawned]. rewrite Hsp. cbn [app].
  set (st0 := set_spawned _ _).
  assert (Hnd : NoDup (order (the_registry st))).
  { rewrite order_perm. apply NoDup_elements. }
  destruct (run_tasks_each tx (order (the_registry st)) st0 Hnd)
    as (st' & E & Hs & Ht & Hp & _ & Hc).
  exists st'. split; [exact E |].
  unfold unlocked, the_mu, the_registry in *. rewrite Hs. cbn.
  repeat split; auto.
  intros ws. rewrite Hc.
  change (transport st0 ws) with (transport st ws).
  destruct (decide (ws ∈ order (registry (connections (srv st))))) as [Hin | Hnin];
    destruct (decide (ws ∈ registry (connections (srv st)))) as [Hin' | Hnin'];
    try reflexivity.
  - destruct Hnin'. rewrite order_perm in Hin. apply elem_of_elements in Hin. exact Hin.
  - destruct Hnin. rewrite order_perm. apply elem_of_elements. exact Hin'.
Qed.

(** X18. A line that is broadcast is written once to every connection
    registered at that moment and to no other, whatever the order of the
    iteration.  When the write goroutines have run, a registered
    connection counts one more write; if the write succeeded the line is
    the last frame that went out and nothing was closed, and if it failed
    no frame went out and the transport was closed once more.  The
    transport of a connection that is not registered is untouched, and
    the registry still holds the connections whose write failed. *)
Theorem dispatch_reaches_every_connection (tx : list byte) (st : State) :
  unlocked st -> spawned st = [] ->
  exists st',
    (_ ← broadcast order tx; run_spawned) st = Val (tt, st') /\
    unlocked st' /\ spawned st' = [] /\
    the_registry st' = the_registry st /\
    forall ws,
      (ws ∈ the_registry st ->
       t_writes (transport st' ws) = S (t_writes (transport st ws)) /\
       (send_error (transport st ws) = None ->
        t_frames (transport st' ws) = t_frames (transport st ws) ++ [tx] /\
        closes st' ws = closes st ws) /\
       (send_error (transport st ws) <> None ->
        t_frames (transport st' ws) = t_frames (transport st ws) /\
        closes st' ws = S (closes st ws))) /\
      (ws ∉ the_registry st -> transport st' ws = transport st ws).
Proof.
  intros Hu Hsp.
  destruct (dispatch_written tx st Hu Hsp) as (st' & E & Hu' & Hsp' & Hr & _ & Htr).
  exists st'. do 4 (split; [assumption |]).
  intros ws. unfold closes. rewrite Htr. split.
  - intros Hin. rewrite decide_True by exact Hin. unfold written.
    destruct (send_error (transport st ws)) as [e |]; cbn.
    + split; [reflexivity |]. split; [discriminate |]. auto.
    + split; [reflexivity |]. split; [auto |]. congruence.
  - intros Hnin. rewrite decide_False by exact Hnin. reflexivity.
Qed.

Lemma HandleWS_accepts (r : Request) (st : State) :
  handshake r = true -> CheckOrigin (srv st) r = true -> unlocked st ->
  exists st',
    HandleWS r st = Val (tt, st') /\ unlocked st' /\
    the_registry st' = {[next_conn st]} ∪ the_registry st /\
    tickers st' = {[next_conn st]} ∪ tickers st /\
    spawned st' = spawned st /\
    next_conn st' = Pos.succ (next_conn st) /\
    transport st' (next_conn st) = new_transport /\
    forall ws, ws <> next_conn st -> transport st' ws = transport st ws.
Proof.
  intros Hh Hc Hu. unfold unlocked in *.
  unfold HandleWS, mbind, M_bind, Upgrade. rewrite Hc, Hh. cbn.
  unfold Add, mbind, M_bind, Lock. cbn. unfold the_mu in *. cbn. rewrite Hu. cbn.
  eexists. split; [reflexivity |].
  unfold the_registry, transport. cbn. rewrite lookup_insert_eq.
  repeat split. intros ws Hne. rewrite lookup_insert_ne by congruence. reflexivity.
Qed.

(** X19. After the close handler of a connection has run, its keep-alive
    goroutine is cancelled: a later tick sends no probe and closes
    nothing, and the connection is no longer registered. *)
Theorem closeHandler_stops_probes (ws : positive) (st st' : State)
    (err : option net_error) :
  unlocked st ->
  closeHandler ws st = Val (err, st') ->
  keepalive_tick ws st' = Val (tt, st') /\
  (ws ∉ tickers st') /\ (ws ∉ the_registry st').
Proof.
  intros Hu E.
  destruct (closeHandler_spec ws st Hu) as (err0 & st0 & E0 & _ & Hr & Ht & _).
  rewrite E in E0. injection E0 as <- <-.
  assert (Hnt : ws ∉ tickers st').
  { rewrite Ht. intros [_ Hn]%elem_of_difference. apply Hn, elem_of_singleton. reflexivity. }
  split; [| split; [exact Hnt |]].
  - unfold keepalive_tick, mbind, M_bind, get.
    rewrite bool_decide_eq_false_2 by exact Hnt. reflexivity.
  - rewrite Hr. intros [_ Hn]%elem_of_difference. apply Hn, elem_of_singleton. reflexivity.
Qed.

(** X20. [HandleWS] leaves the server exactly as it was when the upgrade
    fails, be it for a malformed handshake or for the origin: no
    connection, no goroutine, nothing registered.  When the upgrade
    succeeds it starts the keep-alive goroutine of the new connection,
    whose transport has carried nothing yet and is not closed, starts no
    write, and touches no other transport. *)
Theorem HandleWS_outcomes (r : Request) (st : State) :
  (handshake r = false \/ CheckOrigin (srv st) r = false ->
   HandleWS r st = Val (tt, st)) /\
  (handshake r = true -> CheckOrigin (srv st) r = true -> unlocked st ->
   exists st',
     HandleWS r st = Val (tt, st') /\
     next_conn st ∈ tickers st' /\
     spawned st' = spawned st /\
     transport st' (next_conn st) = new_transport /\
     forall ws, ws <> next_conn st -> transport st' ws = transport st ws).
Proof.
  split.
  - intros Hno. unfold HandleWS, mbind, M_bind, Upgrade.
    destruct Hno as [-> | ->]; [reflexivity |].
    destruct (handshake r); reflexivity.
  - intros Hh Hc Hu.
    destruct (HandleWS_accepts r st Hh Hc Hu)
      as (st' & E & _ & _ & Ht & Hsp & _ & Hnew & Hrest).
    exists st'. split; [exact E |]. split; [| auto].
    rewrite Ht. apply elem_of_union_l, elem_of_singleton. reflexivity.
Qed.

(** X21. A subscriber gets the lines broadcast after it was registered:
    after an accepted upgrade, the next line is the first and only frame
    on the transport of the new connection, which is not closed. *)
Theorem new_subscriber_gets_next_line (r : Request) (tx : list byte) (st : State) :
  handshake r = true -> CheckOrigin (srv st) r = true ->
  unlocked st -> spawned st = [] ->
  exists st',
    (_ ← HandleWS r; _ ← broadcast order tx; run_spawned) st = Val (tt, st') /\
    next_conn st ∈ the_registry st' /\
    t_frames (transport st' (next_conn st)) = [tx] /\
    closes st' (next_conn st) = 0.
Proof.
  intros Hh Hc Hu Hsp.
  destruct (HandleWS_accepts r st Hh Hc Hu)
    as (st1 & E1 & Hu1 & Hr1 & _ & Hsp1 & _ & Hnew & _).
  destruct (dispatch_written tx st1 Hu1)
    as (st' & E & _ & _ & Hr & _ & Htr); [congruence |].
  assert (Hin : next_conn st ∈ the_registry st1).
  { rewrite Hr1. apply elem_of_union_l, elem_of_singleton. reflexivity. }
  exists st'. split.
  - unfold mbind at 1, M_bind at 1. rewrite E1. exact E.
  - split; [rewrite Hr; exact Hin |].
    unfold closes. rewrite Htr, decide_True by exact Hin.
    rewrite Hnew. split; reflexivity.
Qed.

End DispatchLaws.

Lemma broadcast_starts_one_write_each_witness :
  let st := scenario.two_subscribers in
  exists st',
    broadcast elements scenario.line_a st = Val (tt, st') /\
    spawned st' =
      spawned st ++ map (fun ws => (ws, scenario.line_a)) (elements (the_registry st)) /\
    srv st' = srv st /\ net st' = net st /\ tickers st' = tickers st.
Proof.
  intros st.
  apply (broadcast_starts_one_write_each elements scenario.line_a st).
  vm_compute. reflexivity.
Defined.

Lemma dispatch_reaches_every_connection_witness :
  let st := scenario.one_broken in
  let tx := scenario.line_a in
  exists st',
    (_ ← broadcast elements tx; run_spawned) st = Val (tt, st') /\
    unlocked st' /\ spawned st' = [] /\
    the_registry st' = the_registry st /\
    forall ws,
      (ws ∈ the_registry st ->
       t_writes (transport st' ws) = S (t_writes (transport st ws)) /\
       (send_error (transport st ws) = None ->
        t_frames (transport st' ws) = t_frames (transport st ws) ++ [tx] /\
        closes st' ws = closes st ws) /\
       (send_error (transport st ws) <> None ->
        t_frames (transport st' ws) = t_frames (transport st ws) /\
        closes st' ws = S (closes st ws))) /\
      (ws ∉ the_registry st -> transport st' ws = transport st ws).
Proof.
  intros st tx.
  apply (dispatch_reaches_every_connection elements
           (fun m => Permutation_refl (elements m)) tx st).
  - vm_compute. reflexivity.
  - vm_compute. reflexivity.
Defined.

Lemma closeHandler_stops_probes_witness :
  let st' := scenario.then_ (closeHandler 1) scenario.two_subscribers in
  keepalive_tick 1 st' = Val (tt, st') /\
  (1%positive ∉ tickers st') /\ (1%positive ∉ the_registry st').
Proof.
  intros st'.
  apply (closeHandler_stops_probes 1 scenario.two_subscribers st' None).
  - vm_compute. reflexivity.
  - vm_compute. reflexivity.
Defined.

Lemma HandleWS_outcomes_witness :
  let st := scenario.fresh_state (NewServer [Origin scenario.app_origin]) in
  HandleWS (scenario.request_from "https://other.example") st = Val (tt, st) /\
  exists st',
    HandleWS (scenario.request_from scenario.app_origin) st = Val (tt, st') /\
    next_conn st ∈ tickers st' /\
    spawned st' = spawned st /\
    transport st' (next_conn st) = new_transport /\
    forall ws, ws <> next_conn st -> transport st' ws = transport st ws.
Proof.
  intros st. split.
  - apply (proj1 (HandleWS_outcomes (scenario.request_from "https://other.example") st)).
    right. vm_compute. reflexivity.
  - apply (proj2 (HandleWS_outcomes (scenario.request_from scenario.app_origin) st)).
    + vm_compute. reflexivity.
    + vm_compute. reflexivity.
    + vm_compute. reflexivity.
Defined.

Lemma new_subscriber_gets_next_line_witness :
  let st := scenario.fresh_state (NewServer []) in
  let tx := scenario.line_a in
  exists st',
    (_ ← HandleWS (scenario.request_from scenario.app_origin);
     _ ← broadcast elements tx; run_spawned) st = Val (tt, st') /\
    next_conn st ∈ the_registry st' /\
    t_frames (transport st' (next_conn st)) = [tx] /\
    closes st' (next_conn st) = 0.
Proof.
  intros st tx.
  apply (new_subscriber_gets_next_line elements
           (fun m => Permutation_refl (elements m))
           (scenario.request_from scenario.app_origin) tx st).
  - vm_compute. reflexivity.
  - vm_compute. reflexivity.
  - vm_compute. reflexivity.
  - vm_compute. reflexivity.
Defined.

Lemma fold_keeps_origin (options : list broadcast.Option) (s0 : Server) :
  Forall keeps_origin options ->
  origin (fold_left (fun s apply => apply s) options s0) = origin s0 /\
  connections (fold_left (fun s apply => apply s) options s0) = connections s0.
Proof.
  revert s0. induction options as [| o options IH]; intros s0 HF; cbn; [auto |].
  inversion HF as [| ? ? Ho HF']; subst.
  destruct (IH (o s0) HF') as [-> ->]. inversion Ho; subst; cbn; auto.
Qed.

(** X22. [NewServer] applies its options from left to right, so the last
    [Origin] option decides: whatever came before it, and with only
    [Address] and [Secure] options after it, the server built accepts, for
    a non-empty origin, exactly the requests whose Origin header equals
    it.  A server built from [Address] and [Secure] options alone accepts
    every origin and starts with an empty registry and a free mutex. *)
Theorem NewServer_origin_policy (before rest : list broadcast.Option) (o : string)
    (r : Request) :
  Forall keeps_origin rest ->
  origin (NewServer (before ++ Origin o :: rest)) = o /\
  (o <> "" ->
   (CheckOrigin (NewServer (before ++ Origin o :: rest)) r = true <->
    Header_Get (Header r) "Origin" = o)) /\
  CheckOrigin (NewServer rest) r = true /\
  connections (NewServer rest) = NewConnections.
Proof.
  intros HF.
  assert (Ho : origin (NewServer (before ++ Origin o :: rest)) = o).
  { unfold NewServer. rewrite fold_left_app. cbn [fold_left].
    apply (fold_keeps_origin rest (Origin o _) HF). }
  destruct (fold_keeps_origin rest (mkServer DefaultAddr "" "" "" NewConnections) HF)
    as [Ho0 Hc0].
  fold (NewServer rest) in Ho0, Hc0. cbn [origin connections] in Ho0, Hc0.
  split; [exact Ho |]. split; [| split; [apply CheckOrigin_spec; auto | exact Hc0]].
  intros Hne. split.
  - intros [? | ?]%CheckOrigin_spec; congruence.
  - intros Hh. apply CheckOrigin_spec. right. congruence.
Qed.

Lemma NewServer_origin_policy_witness :
  let before := [Origin "https://old.example"] in
  let rest := [Address "0.0.0.0:9000"; Secure "cert.pem" "key.pem"] in
  let o := scenario.app_origin in
  let r := scenario.request_from "https://old.example" in
  origin (NewServer (before ++ Origin o :: rest)) = o /\
  (o <> "" ->
   (CheckOrigin (NewServer (before ++ Origin o :: rest)) r = true <->
    Header_Get (Header r) "Origin" = o)) /\
  CheckOrigin (NewServer rest) r = true /\
  connections (NewServer rest) = NewConnections.
Proof.
  intros before rest o r.
  apply (NewServer_origin_policy before rest o r).
  repeat constructor.
Defined.
